(** * A reference-counted handle: [smart_ptr<T>]

    Shallow embedding of the class template [smart_ptr] found in
    - [Project 2 - Smart Pointers (PC)/Project 2 - Smart Pointers (PC).cpp]
      (module [PC] below), and
    - [Smart Pointers Project 2/main.cpp] (module [Main] below).

    A [smart_ptr] object holds two raw pointers, [ptr_] to the pointee and
    [ref_] to a heap [int] shared by the handles that alias the pointee.
    The heap and the handle objects are explicit: every member function is
    a computation in a small state-and-failure monad whose failure stands
    for C++ undefined behaviour (reading through a null or dangling
    pointer, deleting storage twice, signed overflow). *)

From stdpp Require Import gmap strings list fin_maps.
From Stdlib Require Import ZArith Lia.

Local Open Scope Z_scope.

(** ** Memory model *)

(** Heap addresses and addresses of [smart_ptr] objects. *)
Abbreviation loc := positive.
Abbreviation hid := positive.

(** A heap cell is either a live object or storage that was handed back by
    [delete].  Freed cells stay in the map: a pointer to one is dangling
    for ever, and [new] never returns its address again. *)
Inductive cell (A : Type) : Type :=
| Live (a : A)
| Freed.
Arguments Live {A} a.
Arguments Freed {A}.

(** The two data members of the class; [None] is [nullptr]. *)
Record handle : Type := Handle {
  ptr_ : option loc;   (* T* ptr_   *)
  ref_ : option loc    (* int* ref_ *)
}.

(** [int] is taken to be 32 bits wide; overflow of a signed [int] is
    undefined behaviour. *)
Definition INT_MAX : Z := 2147483647.
Definition INT_MIN : Z := -2147483648.

(** [struct null_ptr_exception : std::exception]. *)
Inductive exception : Type := null_ptr_exception.

Definition what (e : exception) : string :=
  match e with
  | null_ptr_exception => "Attempting to access a null pointer"
  end.

(** Outcome of a member function that may throw. *)
Inductive access (A : Type) : Type :=
| Returned (a : A)
| Thrown (e : exception).
Arguments Returned {A} a.
Arguments Thrown {A} e.

Section Memory.
Context {T : Type}.

Record state : Type := State {
  values  : gmap loc (cell T);   (* objects made by [new T]        *)
  counts  : gmap loc (cell Z);   (* objects made by [new int]      *)
  handles : gmap hid handle;     (* [smart_ptr] objects alive       *)
  cout    : list string          (* what was written to [std::cout] *)
}.

Definition init : state := State ∅ ∅ ∅ [].

(** Computations: [None] is undefined behaviour. *)
Definition M (A : Type) : Type := state → option (A * state).

Definition ret {A} (a : A) : M A := λ s, Some (a, s).
Definition bind {A B} (m : M A) (f : A → M B) : M B :=
  λ s, match m s with
       | Some (a, s') => f a s'
       | None => None
       end.
Definition undefined {A} : M A := λ _, None.

Definition with_values (f : gmap loc (cell T) → gmap loc (cell T)) (s : state) : state :=
  State (f (values s)) (counts s) (handles s) (cout s).
Definition with_counts (f : gmap loc (cell Z) → gmap loc (cell Z)) (s : state) : state :=
  State (values s) (f (counts s)) (handles s) (cout s).
Definition with_handles (f : gmap hid handle → gmap hid handle) (s : state) : state :=
  State (values s) (counts s) (f (handles s)) (cout s).
Definition with_cout (f : list string → list string) (s : state) : state :=
  State (values s) (counts s) (handles s) (f (cout s)).
End Memory.
Arguments state T : clear implicits.
Arguments M T A : clear implicits.

Declare Scope cpp_scope.
Delimit Scope cpp_scope with cpp.
Notation "x <- m ; k" := (bind m (λ x, k))
  (at level 100, m at next level, k at level 200, right associativity) : cpp_scope.
Notation "m ;; k" := (bind m (λ _, k))
  (at level 100, k at level 200, right associativity) : cpp_scope.
Local Open Scope cpp_scope.

Section Primitives.
Context {T : Type}.
Abbreviation M := (M T).

(** *** Data members of the object at address [this] *)
Definition get_ptr (this : hid) : M (option loc) :=
  λ s, match handles s !! this with
       | Some h => Some (ptr_ h, s)
       | None => None
       end.
Definition get_ref (this : hid) : M (option loc) :=
  λ s, match handles s !! this with
       | Some h => Some (ref_ h, s)
       | None => None
       end.
Definition set_ptr (this : hid) (p : option loc) : M unit :=
  λ s, match handles s !! this with
       | Some h => Some (tt, with_handles <[this := Handle p (ref_ h)]> s)
       | None => None
       end.
Definition set_ref (this : hid) (r : option loc) : M unit :=
  λ s, match handles s !! this with
       | Some h => Some (tt, with_handles <[this := Handle (ptr_ h) r]> s)
       | None => None
       end.

(** The member initialiser list of a constructor: the object at [this]
    begins to exist.  Storage that already holds a live [smart_ptr]
    cannot be constructed into. *)
Definition construct (this : hid) (p r : option loc) : M unit :=
  λ s, match handles s !! this with
       | Some _ => None
       | None => Some (tt, with_handles <[this := Handle p r]> s)
       end.
(** The object at [this] ceases to exist once its destructor has run. *)
Definition destruct_object (this : hid) : M unit :=
  λ s, match handles s !! this with
       | Some _ => Some (tt, with_handles (delete this) s)
       | None => None
       end.

(** *** The heap *)
(** [new int(z)] and [new T(v)]: an address never handed out before. *)
Definition new_int (z : Z) : M loc :=
  λ s, let c := fresh (dom (counts s)) in
       Some (c, with_counts <[c := Live z]> s).
Definition new_T (v : T) : M loc :=
  λ s, let p := fresh (dom (values s)) in
       Some (p, with_values <[p := Live v]> s).

(** Reading the [int] behind [r]. *)
Definition load_int (r : option loc) : M Z :=
  λ s, match r with
       | Some c => match counts s !! c with
                   | Some (Live z) => Some (z, s)
                   | _ => None
                   end
       | None => None
       end.
Definition store_int (r : option loc) (z : Z) : M unit :=
  λ s, match r with
       | Some c => match counts s !! c with
                   | Some (Live _) => Some (tt, with_counts <[c := Live z]> s)
                   | _ => None
                   end
       | None => None
       end.
(** Reading the [T] behind [p]. *)
Definition load_T (p : option loc) : M T :=
  λ s, match p with
       | Some l => match values s !! l with
                   | Some (Live v) => Some (v, s)
                   | _ => None
                   end
       | None => None
       end.

(** Post-increment of the [int] behind [r], value discarded. *)
Definition post_incr (r : option loc) : M unit :=
  z <- load_int r;
  if decide (z < INT_MAX) then store_int r (z + 1) else undefined.
(** Pre-decrement of the [int] behind [r], yielding the new value. *)
Definition pre_decr (r : option loc) : M Z :=
  z <- load_int r;
  if decide (INT_MIN < z) then store_int r (z - 1);; ret (z - 1) else undefined.

(** [delete p]: nothing for [nullptr], undefined unless [p] is live. *)
Definition delete_T (p : option loc) : M unit :=
  λ s, match p with
       | None => Some (tt, s)
       | Some l => match values s !! l with
                   | Some (Live _) => Some (tt, with_values <[l := Freed]> s)
                   | _ => None
                   end
       end.
Definition delete_int (r : option loc) : M unit :=
  λ s, match r with
       | None => Some (tt, s)
       | Some c => match counts s !! c with
                   | Some (Live _) => Some (tt, with_counts <[c := Freed]> s)
                   | _ => None
                   end
       end.

(** [cout << str]. *)
Definition print (str : string) : M unit :=
  λ s, Some (tt, with_cout (λ o, o ++ [str]) s).
End Primitives.

(** The line feed written by ["\n"]. *)
Definition LF : string := String (Ascii.ascii_of_nat 10) EmptyString.

(** ** The class in [Project 2 - Smart Pointers (PC).cpp] *)
Module PC.
Section Class.
Context {T : Type}.
Abbreviation M := (M T).

(** [void release()] (private). *)
Definition release (this : hid) : M unit :=
  r <- get_ref this;
  (match r with
   | Some _ =>
       z <- pre_decr r;
       if decide (z = 0) then
         p <- get_ptr this; delete_T p;;
         r' <- get_ref this; delete_int r'
       else ret tt
   | None => ret tt
   end);;
  set_ptr this None;;
  set_ref this None.

(** [smart_ptr() noexcept]. *)
Definition ctor_default (this : hid) : M unit :=
  c <- new_int 0;
  construct this None (Some c).

(** [explicit smart_ptr(T*& raw_ptr) noexcept]; the result is the
    caller's [raw_ptr] after the call. *)
Definition ctor_raw (this : hid) (raw_ptr : option loc) : M (option loc) :=
  c <- new_int 1;
  construct this raw_ptr (Some c);;
  ret raw_ptr.

(** [explicit smart_ptr(T*&& raw_ptr) noexcept]; the result is the
    caller's [raw_ptr] after the call. *)
Definition ctor_raw_rvalue (this : hid) (raw_ptr : option loc) : M (option loc) :=
  c <- new_int 1;
  construct this raw_ptr (Some c);;
  ret None.

(** [smart_ptr(const smart_ptr& rhs) noexcept]. *)
Definition ctor_copy (this rhs : hid) : M unit :=
  p <- get_ptr rhs;
  r <- get_ref rhs;
  construct this p r;;
  p' <- get_ptr this;
  if p' is Some _ then r' <- get_ref this; post_incr r' else ret tt.

(** [smart_ptr(smart_ptr&& rhs) noexcept]. *)
Definition ctor_move (this rhs : hid) : M unit :=
  p <- get_ptr rhs;
  r <- get_ref rhs;
  construct this p r;;
  set_ptr rhs None;;
  set_ref rhs None.

(** [smart_ptr& operator=(const smart_ptr& rhs) noexcept]. *)
Definition assign_copy (this rhs : hid) : M hid :=
  (if decide (this ≠ rhs) then
     release this;;
     p <- get_ptr rhs; set_ptr this p;;
     r <- get_ref rhs; set_ref this r;;
     p' <- get_ptr this;
     if p' is Some _ then r' <- get_ref this; post_incr r' else ret tt
   else ret tt);;
  ret this.

(** [smart_ptr& operator=(smart_ptr&& rhs) noexcept]. *)
Definition assign_move (this rhs : hid) : M hid :=
  print ("Move assignment operator called" +:+ LF);;
  (if decide (this ≠ rhs) then
     release this;;
     p <- get_ptr rhs; set_ptr this p;;
     r <- get_ref rhs; set_ref this r;;
     set_ptr rhs None;;
     set_ref rhs None
   else ret tt);;
  ret this.

(** [bool clone()]. *)
Definition clone (this : hid) : M bool :=
  p <- get_ptr this;
  stay <- (if p is Some _
           then r <- get_ref this; z <- load_int r; ret (bool_decide (z = 1))
           else ret true);
  if stay : bool then ret false
  else
    v <- load_T p;
    new_ptr <- new_T v;
    r <- get_ref this;
    pre_decr r;;
    set_ptr this (Some new_ptr);;
    c <- new_int 1;
    set_ref this (Some c);;
    ret true.

(** [int ref_count() const noexcept]. *)
Definition ref_count (this : hid) : M Z :=
  r <- get_ref this;
  load_int r.

(** [T& operator*() const]: the reference is the pointee's address. *)
Definition deref (this : hid) : M (access loc) :=
  p <- get_ptr this;
  match p with
  | None => ret (Thrown null_ptr_exception)
  | Some l => ret (Returned l)
  end.

(** [T* operator->() const]. *)
Definition arrow (this : hid) : M (access loc) :=
  p <- get_ptr this;
  match p with
  | None => ret (Thrown null_ptr_exception)
  | Some l => ret (Returned l)
  end.

(** [~smart_ptr()]. *)
Definition dtor (this : hid) : M unit :=
  release this;;
  destruct_object this.
End Class.
End PC.

(** ** The class in [Smart Pointers Project 2/main.cpp] *)
Module Main.
Section Class.
Context {T : Type}.
Abbreviation M := (M T).

(** [rhs.red_ = nullptr;] in the move assignment operator.  The class
    declares [ptr_] and [ref_] only: the statement names no data member
    of [rhs], so neither of the two is written.  (A compiler that looks
    the member up rejects the operator once it is instantiated; [main()]
    in that file never does so.) *)
Definition set_red (this : hid) (r : option loc) : M unit := ret tt.

(** [void release()] (private). *)
Definition release (this : hid) : M unit :=
  r <- get_ref this;
  (match r with
   | Some _ =>
       z <- pre_decr r;
       if decide (z = 0) then
         p <- get_ptr this; delete_T p;;
         r' <- get_ref this; delete_int r'
       else ret tt
   | None => ret tt
   end);;
  set_ptr this None;;
  set_ref this None.

(** [smart_ptr() noexcept]. *)
Definition ctor_default (this : hid) : M unit :=
  c <- new_int 0;
  construct this None (Some c).

(** [explicit smart_ptr(T* &raw_ptr) noexcept]. *)
Definition ctor_raw (this : hid) (raw_ptr : option loc) : M (option loc) :=
  c <- new_int 1;
  construct this raw_ptr (Some c);;
  ret raw_ptr.

(** [explicit smart_ptr(T* &&raw_ptr) noexcept]. *)
Definition ctor_raw_rvalue (this : hid) (raw_ptr : option loc) : M (option loc) :=
  c <- new_int 1;
  construct this raw_ptr (Some c);;
  ret None.

(** [smart_ptr(const smart_ptr& rhs) noexcept]. *)
Definition ctor_copy (this rhs : hid) : M unit :=
  p <- get_ptr rhs;
  r <- get_ref rhs;
  construct this p r;;
  p' <- get_ptr this;
  if p' is Some _ then r' <- get_ref this; post_incr r' else ret tt.

(** [smart_ptr(smart_ptr&& rhs) noexcept]. *)
Definition ctor_move (this rhs : hid) : M unit :=
  p <- get_ptr rhs;
  r <- get_ref rhs;
  construct this p r;;
  set_ptr rhs None;;
  set_ref rhs None.

(** [smart_ptr& operator=(const smart_ptr& rhs) noexcept]. *)
Definition assign_copy (this rhs : hid) : M hid :=
  (if decide (this ≠ rhs) then
     release this;;
     p <- get_ptr rhs; set_ptr this p;;
     r <- get_ref rhs; set_ref this r;;
     p' <- get_ptr this;
     if p' is Some _ then r' <- get_ref this; post_incr r' else ret tt
   else ret tt);;
  ret this.

(** [smart_ptr& operator=(smart_ptr&& rhs) noexcept]. *)
Definition assign_move (this rhs : hid) : M hid :=
  (if decide (this ≠ rhs) then
     release this;;
     p <- get_ptr rhs; set_ptr this p;;
     r <- get_ref rhs; set_ref this r;;
     set_ptr rhs None;;
     set_red rhs None
   else ret tt);;
  ret this.

(** [bool clone()]. *)
Definition clone (this : hid) : M bool :=
  p <- get_ptr this;
  stay <- (if p is Some _
           then r <- get_ref this; z <- load_int r; ret (bool_decide (z = 1))
           else ret true);
  if stay : bool then ret false
  else
    v <- load_T p;
    new_ptr <- new_T v;
    r <- get_ref this;
    pre_decr r;;
    set_ptr this (Some new_ptr);;
    c <- new_int 1;
    set_ref this (Some c);;
    ret true.

(** [int ref_count() const noexcept]. *)
Definition ref_count (this : hid) : M Z :=
  r <- get_ref this;
  load_int r.

(** [T& operator*() const]. *)
Definition deref (this : hid) : M (access loc) :=
  p <- get_ptr this;
  match p with
  | None => ret (Thrown null_ptr_exception)
  | Some l => ret (Returned l)
  end.

(** [T* operator->() const]. *)
Definition arrow (this : hid) : M (access loc) :=
  p <- get_ptr this;
  match p with
  | None => ret (Thrown null_ptr_exception)
  | Some l => ret (Returned l)
  end.

(** [~smart_ptr()]. *)
Definition dtor (this : hid) : M unit :=
  release this;;
  destruct_object this.
End Class.
End Main.

(** ** Programs over the public interface *)

(** The public members of [smart_ptr<T>], as either file defines them. *)
Record smart_ptr (T : Type) : Type := SmartPtr {
  ctor_default    : hid → M T unit;
  ctor_raw        : hid → option loc → M T (option loc);
  ctor_raw_rvalue : hid → option loc → M T (option loc);
  ctor_copy       : hid → hid → M T unit;
  ctor_move       : hid → hid → M T unit;
  assign_copy     : hid → hid → M T hid;
  assign_move     : hid → hid → M T hid;
  clone           : hid → M T bool;
  ref_count       : hid → M T Z;
  deref           : hid → M T (access loc);
  arrow           : hid → M T (access loc);
  dtor            : hid → M T unit
}.
Arguments SmartPtr {T}.
Arguments ctor_default {T}.
Arguments ctor_raw {T}.
Arguments ctor_raw_rvalue {T}.
Arguments ctor_copy {T}.
Arguments ctor_move {T}.
Arguments assign_copy {T}.
Arguments assign_move {T}.
Arguments clone {T}.
Arguments ref_count {T}.
Arguments deref {T}.
Arguments arrow {T}.
Arguments dtor {T}.

Definition PC_class {T} : smart_ptr T :=
  SmartPtr PC.ctor_default PC.ctor_raw PC.ctor_raw_rvalue PC.ctor_copy
    PC.ctor_move PC.assign_copy PC.assign_move PC.clone PC.ref_count
    PC.deref PC.arrow PC.dtor.

Definition Main_class {T} : smart_ptr T :=
  SmartPtr Main.ctor_default Main.ctor_raw Main.ctor_raw_rvalue Main.ctor_copy
    Main.ctor_move Main.assign_copy Main.assign_move Main.clone Main.ref_count
    Main.deref Main.arrow Main.dtor.

(** One action of a caller: allocating a pointee, or one use of a public
    member on the object at [this]. *)
Inductive op (T : Type) : Type :=
| New (v : T)
| CtorDefault (this : hid)
| CtorRaw (this : hid) (raw_ptr : option loc)
| CtorRawRvalue (this : hid) (raw_ptr : option loc)
| CtorCopy (this rhs : hid)
| CtorMove (this rhs : hid)
| AssignCopy (this rhs : hid)
| AssignMove (this rhs : hid)
| Clone (this : hid)
| RefCount (this : hid)
| Deref (this : hid)
| Arrow (this : hid)
| Dtor (this : hid).
Arguments New {T} v.
Arguments CtorDefault {T} this.
Arguments CtorRaw {T} this raw_ptr.
Arguments CtorRawRvalue {T} this raw_ptr.
Arguments CtorCopy {T} this rhs.
Arguments CtorMove {T} this rhs.
Arguments AssignCopy {T} this rhs.
Arguments AssignMove {T} this rhs.
Arguments Clone {T} this.
Arguments RefCount {T} this.
Arguments Deref {T} this.
Arguments Arrow {T} this.
Arguments Dtor {T} this.

(** What the caller gets back. *)
Inductive result : Type :=
| RVoid
| RNew (l : loc)
| RRaw (raw_ptr : option loc)
| RThis (this : hid)
| RBool (b : bool)
| RInt (z : Z)
| RAccess (a : access loc).

Section Programs.
Context {T : Type}.
Abbreviation M := (M T).

(** A member function is called on an object within its lifetime. *)
Definition alive (this : hid) : M unit :=
  λ s, match handles s !! this with
       | Some _ => Some (tt, s)
       | None => None
       end.

Definition exec (C : smart_ptr T) (o : op T) : M result :=
  match o with
  | New v => l <- new_T v; ret (RNew l)
  | CtorDefault this => ctor_default C this;; ret RVoid
  | CtorRaw this raw => raw' <- ctor_raw C this raw; ret (RRaw raw')
  | CtorRawRvalue this raw => raw' <- ctor_raw_rvalue C this raw; ret (RRaw raw')
  | CtorCopy this rhs => alive rhs;; ctor_copy C this rhs;; ret RVoid
  | CtorMove this rhs => alive rhs;; ctor_move C this rhs;; ret RVoid
  | AssignCopy this rhs =>
      alive this;; alive rhs;; h <- assign_copy C this rhs; ret (RThis h)
  | AssignMove this rhs =>
      alive this;; alive rhs;; h <- assign_move C this rhs; ret (RThis h)
  | Clone this => alive this;; b <- clone C this; ret (RBool b)
  | RefCount this => alive this;; z <- ref_count C this; ret (RInt z)
  | Deref this => alive this;; a <- deref C this; ret (RAccess a)
  | Arrow this => alive this;; a <- arrow C this; ret (RAccess a)
  | Dtor this => alive this;; dtor C this;; ret RVoid
  end.

Fixpoint run (C : smart_ptr T) (os : list (op T)) : M (list result) :=
  match os with
  | [] => ret []
  | o :: os' => r <- exec C o; rs <- run C os'; ret (r :: rs)
  end.

(** States a program can bring about, starting with nothing allocated. *)
Definition reachable (C : smart_ptr T) (s : state T) : Prop :=
  ∃ os rs, run C os init = Some (rs, s).

(** The state a program ends in ([init] if its behaviour is undefined). *)
Definition state_after (C : smart_ptr T) (os : list (op T)) : state T :=
  match run C os init with
  | Some (_, s) => s
  | None => init
  end.

(** *** Observations used in the statements *)

(** The handle object at [this] is empty: it holds no value. *)
Definition empty (s : state T) (this : hid) : Prop :=
  ∃ h, handles s !! this = Some h ∧ ptr_ h = None.

(** The live handles whose [ref_] is the count cell [c]. *)
Definition sharers (c : loc) (hs : gmap hid handle) : gmap hid handle :=
  filter (λ kv, ref_ kv.2 = Some c) hs.
Definition alias_count (c : loc) (hs : gmap hid handle) : nat :=
  size (sharers c hs).
(** What one slot of the handle table contributes to [alias_count c]. *)
Definition weight (c : loc) (o : option handle) : nat :=
  match o with
  | Some h => if decide (ref_ h = Some c) then 1%nat else 0%nat
  | None => 0%nat
  end.

(** The count cell [c] is leaked: still allocated, and no handle that
    is alive points to it. *)
Definition leaked_count (s : state T) (c : loc) : Prop :=
  (∃ z, counts s !! c = Some (Live z)) ∧
  ∀ this h, handles s !! this = Some h → ref_ h ≠ Some c.
End Programs.

(** ** Invariants of the reachable states *)
Section Invariants.
Context {T : Type}.

(** Either of the two definitions of the class. *)
Definition source_class (C : smart_ptr T) : Prop :=
  C = PC_class ∨ C = Main_class.

(** The two files, and the class each defines. *)
Inductive file : Type := PC_cpp | main_cpp.

Definition class_of (f : file) : smart_ptr T :=
  match f with
  | PC_cpp => PC_class
  | main_cpp => Main_class
  end.

(** The handle at [this] has been released: both members are null. *)
Definition released (this : hid) (s : state T) : Prop :=
  handles s !! this = Some (Handle None None).

(** Every count pointer held by a handle was obtained from [new int]. *)
Definition refs_allocated (s : state T) : Prop :=
  ∀ this h c,
    handles s !! this = Some h → ref_ h = Some c → is_Some (counts s !! c).

(** A handle that holds a value never sees a live count below 1. *)
Definition counts_positive (s : state T) : Prop :=
  ∀ this h p c z,
    handles s !! this = Some h → ptr_ h = Some p → ref_ h = Some c →
    counts s !! c = Some (Live z) → 1 ≤ z.

Definition positive_inv (s : state T) : Prop :=
  refs_allocated s ∧ counts_positive s.

(** Invariant I2: a handle that holds a value points to a live count
    that equals the number of handles sharing that count, and all of
    them hold the same value. *)
Definition count_exact (s : state T) : Prop :=
  ∀ this h p,
    handles s !! this = Some h → ptr_ h = Some p →
    ∃ c, ref_ h = Some c ∧
         counts s !! c = Some (Live (Z.of_nat (alias_count c (handles s)))) ∧
         ∀ this' h', handles s !! this' = Some h' → ref_ h' = Some c →
                     ptr_ h' = Some p.

Definition exact_inv (s : state T) : Prop :=
  refs_allocated s ∧ count_exact s.

(** *** The shapes of a state change

    Each member function, when it returns, has changed the handle table
    and the counts in one of a few ways; the invariants are proved once
    per shape.  [vacant this s] says that [this] shares no count in [s]:
    the object does not exist yet, or it has just been released. *)
Definition vacant (this : hid) (s : state T) : Prop :=
  handles s !! this = None ∨ released this s.

Inductive astep : state T → state T → Prop :=
| astep_same s s' :
    handles s' = handles s → counts s' = counts s → astep s s'
| astep_fresh this p z0 c s s' :
    (* a constructor that allocates its own count *)
    handles s !! this = None → counts s !! c = None →
    p = None ∨ z0 = 1 →
    handles s' = <[this := Handle p (Some c)]> (handles s) →
    counts s' = <[c := Live z0]> (counts s) →
    astep s s'
| astep_share this rhs h s s' :
    (* [this] takes over the members of [rhs] and counts itself in *)
    vacant this s → this ≠ rhs → handles s !! rhs = Some h →
    handles s' = <[this := h]> (handles s) →
    match ptr_ h with
    | None => counts s' = counts s
    | Some _ => ∃ c z, ref_ h = Some c ∧ counts s !! c = Some (Live z) ∧
                       z < INT_MAX ∧
                       counts s' = <[c := Live (z + 1)]> (counts s)
    end →
    astep s s'
| astep_transfer this rhs h s s' :
    (* [this] takes over the members of [rhs], which is left null *)
    vacant this s → this ≠ rhs → handles s !! rhs = Some h →
    handles s' = <[rhs := Handle None None]> (<[this := h]> (handles s)) →
    counts s' = counts s →
    astep s s'
| astep_release this h s s' :
    (* [release()] *)
    handles s !! this = Some h →
    handles s' = <[this := Handle None None]> (handles s) →
    match ref_ h with
    | None => counts s' = counts s
    | Some c => ∃ z, counts s !! c = Some (Live z) ∧ INT_MIN < z ∧
                     counts s' =
                       <[c := if decide (z = 1) then Freed else Live (z - 1)]>
                         (counts s)
    end →
    astep s s'
| astep_drop this s s' :
    (* the end of a destructor *)
    released this s →
    handles s' = delete this (handles s) → counts s' = counts s →
    astep s s'
| astep_clone this p c z p' c' s s' :
    (* [clone()] when it returns true *)
    handles s !! this = Some (Handle (Some p) (Some c)) →
    counts s !! c = Some (Live z) → z ≠ 1 →
    c' ≠ c → counts s !! c' = None →
    handles s' = <[this := Handle (Some p') (Some c')]> (handles s) →
    counts s' = <[c' := Live 1]> (<[c := Live (z - 1)]> (counts s)) →
    astep s s'.

(** The move assignment of [main.cpp] leaves [rhs.ref_] as it was. *)
Inductive astep_main : state T → state T → Prop :=
| astep_main_common s s' : astep s s' → astep_main s s'
| astep_main_transfer this rhs h s s' :
    vacant this s → this ≠ rhs → handles s !! rhs = Some h →
    handles s' = <[rhs := Handle None (ref_ h)]> (<[this := h]> (handles s)) →
    counts s' = counts s →
    astep_main s s'.
End Invariants.

(** ** Callers that hand each value over once *)
Section Discipline.
Context {T : Type}.

(** A raw pointer may be handed to a constructor when it is null, or when
    it points to a live value that no handle holds yet. *)
Definition adoptable (s : state T) (raw : option loc) : Prop :=
  match raw with
  | None => True
  | Some p =>
      match values s !! p with
      | Some (Live _) => map_Forall (λ _ h, ptr_ h ≠ Some p) (handles s)
      | _ => False
      end
  end.

(** The caller's side of one action. *)
Definition disciplined (s : state T) (o : op T) : Prop :=
  match o with
  | CtorRaw _ raw => adoptable s raw
  | CtorRawRvalue _ raw => adoptable s raw
  | _ => True
  end.

(** States reached by programs all of whose actions are disciplined. *)
Inductive reachable_disciplined (C : smart_ptr T) : state T → Prop :=
| disciplined_init : reachable_disciplined C init
| disciplined_step s o r s' :
    reachable_disciplined C s → disciplined s o →
    exec C o s = Some (r, s') → reachable_disciplined C s'.

(** Every value a handle holds is live. *)
Definition values_live (s : state T) : Prop :=
  ∀ k h p, handles s !! k = Some h → ptr_ h = Some p →
           ∃ v, values s !! p = Some (Live v).

(** Handles that hold the same value use the same count. *)
Definition owners_agree (s : state T) : Prop :=
  ∀ k1 h1 k2 h2 p,
    handles s !! k1 = Some h1 → handles s !! k2 = Some h2 →
    ptr_ h1 = Some p → ptr_ h2 = Some p → ref_ h1 = ref_ h2.

Definition safe_inv (s : state T) : Prop :=
  exact_inv s ∧ values_live s ∧ owners_agree s.

(** The live handles whose [ptr_] is the value cell [p]. *)
Definition holders (p : loc) (hs : gmap hid handle) : gmap hid handle :=
  filter (λ kv, ptr_ kv.2 = Some p) hs.
End Discipline.

(** ** Basic facts about the monad and the memory primitives *)
Section Basics.
Context {T : Type}.
Implicit Types (s : state T) (this rhs : hid).

Lemma bind_Some {A B} (m : M T A) (f : A → M T B) s b s'' :
  bind m f s = Some (b, s'') ↔
  ∃ a s', m s = Some (a, s') ∧ f a s' = Some (b, s'').
Proof.
  unfold bind. split.
  - destruct (m s) as [[a s']|]; [eauto | discriminate].
  - intros (a & s' & -> & Hf). exact Hf.
Qed.

Lemma fresh_count s : counts s !! fresh (dom (counts s)) = None.
Proof. apply not_elem_of_dom, is_fresh. Qed.

Lemma fresh_value s : values s !! fresh (dom (values s)) = None.
Proof. apply not_elem_of_dom, is_fresh. Qed.

Lemma state_eta s : State (values s) (counts s) (handles s) (cout s) = s.
Proof. by destruct s. Qed.

End Basics.

(** Unfolds a member function down to map lookups and updates. *)
Ltac cpp_unfold :=
  unfold PC.ctor_default, PC.ctor_raw, PC.ctor_raw_rvalue,
    PC.ctor_copy, PC.ctor_move, PC.assign_copy, PC.assign_move, PC.clone,
    PC.ref_count, PC.deref, PC.arrow, PC.dtor, PC.release,
    Main.ctor_default, Main.ctor_raw, Main.ctor_raw_rvalue,
    Main.ctor_copy, Main.ctor_move, Main.assign_copy, Main.assign_move,
    Main.clone, Main.ref_count, Main.deref, Main.arrow, Main.dtor,
    Main.release, Main.set_red,
    post_incr, pre_decr, bind, ret, undefined,
    get_ptr, get_ref, set_ptr, set_ref, construct, destruct_object,
    new_int, new_T, load_int, store_int, load_T, delete_T, delete_int,
    print, alive,
    with_values, with_counts, with_handles, with_cout in *;
  simpl in *.

(** Runs through the branches of an unfolded member function. *)
Ltac cpp_cases :=
  repeat (first
    [ progress simplify_map_eq
    | rewrite fresh_count in *
    | rewrite fresh_value in *
    | case_match
    | progress simpl in * ]).

(** ** The two files define the same members, move assignment apart *)
Section Agreement.
Context {T : Type}.

Lemma release_agree : @Main.release T = PC.release.
Proof. reflexivity. Qed.
Lemma ctor_default_agree : @Main.ctor_default T = PC.ctor_default.
Proof. reflexivity. Qed.
Lemma ctor_raw_agree : @Main.ctor_raw T = PC.ctor_raw.
Proof. reflexivity. Qed.
Lemma ctor_raw_rvalue_agree : @Main.ctor_raw_rvalue T = PC.ctor_raw_rvalue.
Proof. reflexivity. Qed.
Lemma ctor_copy_agree : @Main.ctor_copy T = PC.ctor_copy.
Proof. reflexivity. Qed.
Lemma ctor_move_agree : @Main.ctor_move T = PC.ctor_move.
Proof. reflexivity. Qed.
Lemma assign_copy_agree : @Main.assign_copy T = PC.assign_copy.
Proof. reflexivity. Qed.
Lemma clone_agree : @Main.clone T = PC.clone.
Proof. reflexivity. Qed.
Lemma ref_count_agree : @Main.ref_count T = PC.ref_count.
Proof. reflexivity. Qed.
Lemma deref_agree : @Main.deref T = PC.deref.
Proof. reflexivity. Qed.
Lemma arrow_agree : @Main.arrow T = PC.arrow.
Proof. reflexivity. Qed.
Lemma dtor_agree : @Main.dtor T = PC.dtor.
Proof. reflexivity. Qed.

(** Every action other than a move assignment runs alike in both. *)
Lemma exec_agree (o : op T) :
  (∀ this rhs, o ≠ AssignMove this rhs) →
  exec Main_class o = exec PC_class o.
Proof. destruct o; intros Hne; try reflexivity. by destruct (Hne this rhs). Qed.
End Agreement.

(** ** Counting the handles that share a count *)
Section Counting.
Implicit Types (hs : gmap hid handle) (c : loc) (k : hid) (h : handle).

Lemma alias_count_delete c k hs :
  (alias_count c (delete k hs) + weight c (hs !! k) = alias_count c hs)%nat.
Proof.
  unfold alias_count, sharers, weight.
  rewrite map_filter_delete, map_size_delete.
  destruct (hs !! k) as [h|] eqn:Hk.
  - case_decide as Hc.
    + rewrite (map_lookup_filter_Some_2 _ _ k h Hk Hc). simpl.
      assert (size (filter (λ kv : hid * handle, ref_ kv.2 = Some c) hs) ≠ 0%nat); [|lia].
      apply map_size_ne_0_lookup. exists k.
      rewrite (map_lookup_filter_Some_2 _ _ k h Hk Hc). eauto.
    + replace (filter _ hs !! k) with (@None handle); [simpl; lia|].
      symmetry. apply map_lookup_filter_None. right. intros h' Hh'. naive_solver.
  - replace (filter _ hs !! k) with (@None handle); [simpl; lia|].
    symmetry. apply map_lookup_filter_None. by left.
Qed.

Lemma alias_count_insert_fresh c k h hs :
  hs !! k = None →
  alias_count c (<[k:=h]> hs) = (alias_count c hs + weight c (Some h))%nat.
Proof.
  intros Hk. unfold alias_count, sharers, weight.
  rewrite map_filter_insert. case_decide as Hc.
  - rewrite map_size_insert_None; [simpl in *; rewrite decide_True by done; lia|].
    apply map_lookup_filter_None. by left.
  - simpl in Hc. rewrite decide_False by done. rewrite delete_id by done. lia.
Qed.

Lemma alias_count_insert c k h hs :
  (alias_count c (<[k:=h]> hs) + weight c (hs !! k) =
   alias_count c hs + weight c (Some h))%nat.
Proof.
  rewrite <-insert_delete_eq.
  rewrite alias_count_insert_fresh by apply lookup_delete_eq.
  pose proof (alias_count_delete c k hs). lia.
Qed.

Lemma alias_count_lookup c k h hs :
  hs !! k = Some h → ref_ h = Some c → (1 ≤ alias_count c hs)%nat.
Proof.
  intros Hk Hc. pose proof (alias_count_delete c k hs) as H.
  rewrite Hk in H. simpl in H. rewrite decide_True in H by done. lia.
Qed.

Lemma alias_count_unused c hs :
  (∀ k h, hs !! k = Some h → ref_ h ≠ Some c) → alias_count c hs = 0%nat.
Proof.
  intros Hnone. unfold alias_count, sharers.
  apply map_size_empty_iff, map_empty. intros k.
  apply map_lookup_filter_None. right. intros h Hk. by apply Hnone in Hk.
Qed.
End Counting.


(** ** The invariants are kept by every shape of step *)
Section Preservation.
Context {T : Type}.
Implicit Types (s : state T) (this rhs k : hid) (c : loc).

Lemma vacant_weight c this s :
  vacant this s → weight c (handles s !! this) = 0%nat.
Proof. intros [-> | ->]; reflexivity. Qed.

Lemma refs_allocated_unused c s :
  refs_allocated s → counts s !! c = None →
  ∀ k h, handles s !! k = Some h → ref_ h ≠ Some c.
Proof.
  intros Hal Hc k h Hk Hr. destruct (Hal k h c Hk Hr) as [x Hx]. congruence.
Qed.

(** A step never forgets a count cell, and the count pointers it stores
    in handles are allocated. *)
Lemma refs_allocated_astep_main s s' :
  astep_main s s' → refs_allocated s → refs_allocated s'.
Proof.
  intros Hstep Hal k hk c1 Hk Hr.
  destruct Hstep as [s s' Hstep | this rhs h s s' Hv Hne Hrhs Hh Hcs].
  - destruct Hstep as
      [ s s' Hh Hc
      | this p z0 c s s' Hthis Hc Hpz Hh Hcs
      | this rhs h s s' Hv Hne Hrhs Hh Hcs
      | this rhs h s s' Hv Hne Hrhs Hh Hcs
      | this h s s' Hthis Hh Hcs
      | this s s' Hrel Hh Hcs
      | this p c z p' c' s s' Hthis Hc Hz Hcc Hc' Hh Hcs ];
      rewrite Hh in Hk.
    + rewrite Hc. eauto.
    + rewrite Hcs. apply lookup_insert_is_Some'.
      destruct (decide (this = k)) as [->|]; simplify_map_eq; eauto.
    + assert (is_Some (counts s !! c1)) as Hold.
      { destruct (decide (this = k)) as [->|]; simplify_map_eq; eauto. }
      destruct (ptr_ h); [|by rewrite Hcs].
      destruct Hcs as (c & z & _ & _ & _ & ->).
      apply lookup_insert_is_Some'; eauto.
    + rewrite Hcs.
      destruct (decide (rhs = k)) as [->|]; simplify_map_eq.
      destruct (decide (this = k)) as [->|]; simplify_map_eq; eauto.
    + assert (is_Some (counts s !! c1)) as Hold.
      { destruct (decide (this = k)) as [->|]; simplify_map_eq; eauto. }
      destruct (ref_ h); [|by rewrite Hcs].
      destruct Hcs as (z & _ & _ & ->).
      apply lookup_insert_is_Some'; eauto.
    + rewrite Hcs. apply lookup_delete_Some in Hk as [_ Hk]. eauto.
    + rewrite Hcs. apply lookup_insert_is_Some'.
      destruct (decide (this = k)) as [->|]; simplify_map_eq; [by left|].
      right. apply lookup_insert_is_Some'; eauto.
  - rewrite Hh in Hk. rewrite Hcs.
    destruct (decide (rhs = k)) as [->|]; simplify_map_eq; [eauto|].
    destruct (decide (this = k)) as [->|]; simplify_map_eq; eauto.
Qed.

Lemma counts_positive_astep_main s s' :
  astep_main s s' → positive_inv s → counts_positive s'.
Proof.
  intros Hstep [Hal Hpos] k hk q c1 z' Hk Hq Hr Hz'.
  destruct Hstep as [s s' Hstep | this rhs h s s' Hv Hne Hrhs Hh Hcs].
  - destruct Hstep as
      [ s s' Hh Hc
      | this p z0 c s s' Hthis Hc Hpz Hh Hcs
      | this rhs h s s' Hv Hne Hrhs Hh Hcs
      | this rhs h s s' Hv Hne Hrhs Hh Hcs
      | this h s s' Hthis Hh Hcs
      | this s s' Hrel Hh Hcs
      | this p c z p' c' s s' Hthis Hc Hz Hcc Hc' Hh Hcs ];
      rewrite Hh in Hk.
    + rewrite Hc in Hz'. eauto.
    + rewrite Hcs in Hz'.
      destruct (decide (this = k)) as [->|]; simplify_map_eq.
      * destruct Hpz; simplify_eq. lia.
      * pose proof (refs_allocated_unused c s Hal Hc k hk Hk).
        rewrite lookup_insert_ne in Hz' by congruence. eauto.
    + assert (∃ k0, handles s !! k0 = Some hk) as [k0 Hk0].
      { destruct (decide (this = k)) as [->|]; simplify_map_eq; eauto. }
      destruct (ptr_ h) eqn:Hp.
      * destruct Hcs as (c & z & Hrc & Hc & _ & Hcs). rewrite Hcs in Hz'.
        destruct (decide (c = c1)) as [->|]; simplify_map_eq; [|eauto].
        pose proof (Hpos rhs h _ c1 z Hrhs Hp Hrc Hc). lia.
      * rewrite Hcs in Hz'. eauto.
    + rewrite Hcs in Hz'.
      destruct (decide (rhs = k)) as [->|]; simplify_map_eq.
      destruct (decide (this = k)) as [->|]; simplify_map_eq; eauto.
    + destruct (decide (this = k)) as [->|]; simplify_map_eq.
      destruct (ref_ h) as [c|] eqn:Hrc; [|rewrite Hcs in Hz'; eauto].
      destruct Hcs as (z & Hc & _ & Hcs). rewrite Hcs in Hz'.
      destruct (decide (c = c1)) as [->|]; simplify_map_eq; [|eauto].
      pose proof (Hpos k hk q c1 z Hk Hq Hr Hc).
      case_decide; simplify_eq. lia.
    + rewrite Hcs in Hz'. apply lookup_delete_Some in Hk as [_ Hk]. eauto.
    + rewrite Hcs in Hz'.
      destruct (decide (this = k)) as [->|]; simplify_map_eq; [lia|].
      destruct (decide (c' = c1)) as [->|]; simplify_map_eq; [lia|].
      destruct (decide (c = c1)) as [->|]; simplify_map_eq; [|eauto].
      pose proof (Hpos this _ p c1 z Hthis eq_refl eq_refl Hc). lia.
  - rewrite Hh in Hk. rewrite Hcs in Hz'.
    destruct (decide (rhs = k)) as [->|]; simplify_map_eq.
    destruct (decide (this = k)) as [->|]; simplify_map_eq; eauto.
Qed.

Lemma positive_inv_astep_main s s' :
  astep_main s s' → positive_inv s → positive_inv s'.
Proof.
  intros Hstep Hinv. split.
  - eapply refs_allocated_astep_main; [done | apply Hinv].
  - by eapply counts_positive_astep_main.
Qed.
Lemma weight_Some_eq c h : ref_ h = Some c → weight c (Some h) = 1%nat.
Proof. intros Hr. unfold weight. by rewrite decide_True. Qed.

Lemma weight_Some_ne c h : ref_ h ≠ Some c → weight c (Some h) = 0%nat.
Proof. intros Hr. unfold weight. by rewrite decide_False. Qed.

Lemma count_exact_astep s s' :
  astep s s' → exact_inv s → count_exact s'.
Proof.
  intros Hstep [Hal Hex] k hk q Hk Hq.
  destruct Hstep as
    [ s s' Hh Hc
    | this p z0 c s s' Hthis Hc Hpz Hh Hcs
    | this rhs h s s' Hv Hne Hrhs Hh Hcs
    | this rhs h s s' Hv Hne Hrhs Hh Hcs
    | this h s s' Hthis Hh Hcs
    | this s s' Hrel Hh Hcs
    | this p c z p' c' s s' Hthis Hc Hz Hcc Hc' Hh Hcs ];
    rewrite Hh in Hk |- *.
  - rewrite Hc. eauto.
  - (* a constructor with its own count *)
    pose proof (refs_allocated_unused c s Hal Hc) as Hun.
    destruct (decide (this = k)) as [->|]; simplify_map_eq.
    + exists c. split; [done|]. split.
      * rewrite Hcs, lookup_insert_eq, alias_count_insert_fresh by done.
        rewrite (alias_count_unused c (handles s)) by done.
        rewrite weight_Some_eq by done. destruct Hpz; by simplify_eq.
      * intros k' h' Hk' Hr'.
        destruct (decide (k = k')) as [->|]; simplify_map_eq; [done|].
        by destruct (Hun k' h').
    + destruct (Hex k hk q Hk Hq) as (c1 & Hr1 & Hc1 & Hsh).
      assert (c ≠ c1) by congruence.
      exists c1. split; [done|]. split.
      * rewrite Hcs, lookup_insert_ne, alias_count_insert_fresh by done.
        rewrite weight_Some_ne by (simpl; congruence).
        by rewrite Nat.add_0_r.
      * intros k' h' Hk' Hr'.
        destruct (decide (this = k')) as [->|]; simplify_map_eq; eauto.
  - (* sharing *)
    assert (∃ k0, handles s !! k0 = Some hk) as [k0 Hk0].
    { destruct (decide (this = k)) as [->|]; simplify_map_eq; eauto. }
    destruct (Hex k0 hk q Hk0 Hq) as (c1 & Hr1 & Hc1 & Hsh).
    pose proof (alias_count_insert c1 this h (handles s)) as Hn.
    rewrite vacant_weight in Hn by done.
    exists c1. split; [done|]. split.
    + destruct (ptr_ h) as [ph|] eqn:Hp.
      * destruct Hcs as (c & z & Hrc & Hc & _ & ->).
        destruct (decide (c = c1)) as [->|].
        -- rewrite weight_Some_eq in Hn by done.
           rewrite lookup_insert_eq. simplify_eq. do 2 f_equal. lia.
        -- rewrite weight_Some_ne in Hn by congruence.
           rewrite lookup_insert_ne by done. rewrite Hc1. do 3 f_equal. lia.
      * rewrite weight_Some_ne in Hn.
        -- rewrite Hcs, Hc1. do 3 f_equal. lia.
        -- intros Hr. pose proof (Hsh rhs h Hrhs Hr). congruence.
    + intros k' h' Hk' Hr'.
      destruct (decide (this = k')) as [->|]; simplify_map_eq; eauto.
  - (* transfer *)
    destruct (decide (rhs = k)) as [->|]; simplify_map_eq.
    assert (∃ k0, handles s !! k0 = Some hk) as [k0 Hk0].
    { destruct (decide (this = k)) as [->|]; simplify_map_eq; eauto. }
    destruct (Hex k0 hk q Hk0 Hq) as (c1 & Hr1 & Hc1 & Hsh).
    pose proof (alias_count_insert c1 this h (handles s)) as Hn.
    rewrite vacant_weight in Hn by done.
    pose proof (alias_count_insert c1 rhs (Handle None None)
                  (<[this:=h]> (handles s))) as Hn'.
    rewrite lookup_insert_ne, Hrhs in Hn' by done.
    rewrite (weight_Some_ne c1 (Handle None None)) in Hn' by done.
    exists c1. split; [done|]. split.
    + rewrite Hcs, Hc1. do 3 f_equal. lia.
    + intros k' h' Hk' Hr'.
      destruct (decide (rhs = k')) as [->|]; simplify_map_eq.
      destruct (decide (this = k')) as [->|]; simplify_map_eq; eauto.
  - (* release *)
    destruct (decide (this = k)) as [->|]; simplify_map_eq.
    destruct (Hex k hk q Hk Hq) as (c1 & Hr1 & Hc1 & Hsh).
    pose proof (alias_count_insert c1 this (Handle None None) (handles s)) as Hn.
    rewrite Hthis, (weight_Some_ne c1 (Handle None None)) in Hn by done.
    assert (1 ≤ alias_count c1 (<[this:=Handle None None]> (handles s)))%nat
      as Hone.
    { apply (alias_count_lookup c1 k hk); [|done]. by rewrite lookup_insert_ne. }
    exists c1. split; [done|]. split.
    + destruct (ref_ h) as [c|] eqn:Hrc.
      * destruct Hcs as (z & Hc & _ & ->).
        destruct (decide (c = c1)) as [->|].
        -- rewrite weight_Some_eq in Hn by done.
           rewrite lookup_insert_eq. simplify_eq.
           rewrite decide_False by lia. do 2 f_equal. lia.
        -- rewrite weight_Some_ne in Hn by congruence.
           rewrite lookup_insert_ne by done. rewrite Hc1. do 3 f_equal. lia.
      * rewrite weight_Some_ne in Hn by congruence.
        rewrite Hcs, Hc1. do 3 f_equal. lia.
    + intros k' h' Hk' Hr'.
      destruct (decide (this = k')) as [->|]; simplify_map_eq; eauto.
  - (* the end of a destructor *)
    apply lookup_delete_Some in Hk as [Hne Hk].
    destruct (Hex k hk q Hk Hq) as (c1 & Hr1 & Hc1 & Hsh).
    pose proof (alias_count_delete c1 this (handles s)) as Hn.
    rewrite Hrel, (weight_Some_ne c1 (Handle None None)) in Hn by done.
    exists c1. split; [done|]. split.
    + rewrite Hcs, Hc1. do 3 f_equal. lia.
    + intros k' h' [_ Hk']%lookup_delete_Some Hr'. eauto.
  - (* clone *)
    pose proof (refs_allocated_unused c' s Hal Hc') as Hun.
    destruct (decide (this = k)) as [->|]; simplify_map_eq.
    + pose proof (alias_count_insert c' k (Handle (Some q) (Some c'))
                    (handles s)) as Hn.
      rewrite Hthis, (weight_Some_ne c' (Handle (Some p) (Some c))),
        (weight_Some_eq c' (Handle (Some q) (Some c'))) in Hn
        by (simpl; congruence).
      rewrite (alias_count_unused c' (handles s)) in Hn by done.
      exists c'. split; [done|]. split.
      * rewrite Hcs, lookup_insert_eq. do 2 f_equal. lia.
      * intros k' h' Hk' Hr'.
        destruct (decide (k = k')) as [->|]; simplify_map_eq; [done|].
        by destruct (Hun k' h').
    + destruct (Hex k hk q Hk Hq) as (c1 & Hr1 & Hc1 & Hsh).
      assert (c' ≠ c1) by congruence.
      pose proof (alias_count_insert c1 this (Handle (Some p') (Some c'))
                    (handles s)) as Hn.
      rewrite Hthis, (weight_Some_ne c1 (Handle (Some p') (Some c'))) in Hn
        by (simpl; congruence).
      exists c1. split; [done|]. split.
      * rewrite Hcs, lookup_insert_ne by done.
        destruct (decide (c = c1)) as [->|].
        -- rewrite weight_Some_eq in Hn by done.
           rewrite lookup_insert_eq. simplify_eq. do 2 f_equal. lia.
        -- rewrite weight_Some_ne in Hn by (simpl; congruence).
           rewrite lookup_insert_ne by done. rewrite Hc1. do 3 f_equal. lia.
      * intros k' h' Hk' Hr'.
        destruct (decide (this = k')) as [->|]; simplify_map_eq; eauto.
Qed.

Lemma exact_inv_astep s s' : astep s s' → exact_inv s → exact_inv s'.
Proof.
  intros Hstep Hinv. split.
  - eapply refs_allocated_astep_main; [by apply astep_main_common | apply Hinv].
  - by eapply count_exact_astep.
Qed.
End Preservation.

(** ** Every member function takes steps of these shapes *)
Section Refinement.
Context {T : Type}.
Implicit Types (s : state T) (this rhs k : hid) (c : loc).

Lemma release_astep this s s' :
  PC.release this s = Some (tt, s') → astep s s' ∧ released this s'.
Proof.
  intros H. cpp_unfold.
  destruct (handles s !! this) as [[p r]|] eqn:Hh; [|done]. simpl in *.
  split.
  - eapply (astep_release this (Handle p r)); [done | |].
    + cpp_cases; simpl; by rewrite ?insert_insert_eq.
    + simpl. destruct r as [c|]; simpl in *.
      * destruct (counts s !! c) as [[z|]|] eqn:Hc; try done.
        exists z. split; [done|].
        case_decide; [|done]. split; [done|].
        cpp_cases; simpl; rewrite ?insert_insert_eq; try done; try lia.
      * cpp_cases. done.
  - unfold released. cpp_cases; simpl; by simplify_map_eq.
Qed.

Lemma ctor_default_astep this s s' :
  PC.ctor_default this s = Some (tt, s') → astep s s'.
Proof.
  intros H. cpp_unfold.
  destruct (handles s !! this) eqn:Hh; simplify_eq.
  eapply astep_fresh with (this := this) (z0 := 0);
    [done | apply fresh_count | | reflexivity | reflexivity]; by left.
Qed.

Lemma ctor_raw_astep this raw raw' s s' :
  PC.ctor_raw this raw s = Some (raw', s') → astep s s'.
Proof.
  intros H. cpp_unfold.
  destruct (handles s !! this) eqn:Hh; simplify_eq.
  eapply astep_fresh with (this := this) (z0 := 1);
    [done | apply fresh_count | | reflexivity | reflexivity]; by right.
Qed.

Lemma ctor_raw_rvalue_astep this raw raw' s s' :
  PC.ctor_raw_rvalue this raw s = Some (raw', s') → astep s s'.
Proof.
  intros H. cpp_unfold.
  destruct (handles s !! this) eqn:Hh; simplify_eq.
  eapply astep_fresh with (this := this) (z0 := 1);
    [done | apply fresh_count | | reflexivity | reflexivity]; by right.
Qed.

Lemma ctor_copy_astep this rhs s s' :
  PC.ctor_copy this rhs s = Some (tt, s') → astep s s'.
Proof.
  intros H. cpp_unfold.
  destruct (handles s !! rhs) as [[p r]|] eqn:Hrhs; [|done].
  destruct (handles s !! this) eqn:Hthis;
    repeat (simplify_map_eq; simpl in * ).
  assert (this ≠ rhs) by congruence.
  eapply (astep_share this rhs (Handle p r)); [by left | done | done | |].
  - cpp_cases; simpl; done.
  - simpl. destruct p as [p|]; repeat (simplify_map_eq; simpl in * ); [|done].
    destruct r as [c|]; [|done].
    destruct (counts s !! c) as [[z|]|] eqn:Hc;
      repeat (simplify_map_eq; simpl in * ).
    case_decide; repeat (simplify_map_eq; simpl in * ).
    exists c, z. done.
Qed.

Lemma ctor_move_astep this rhs s s' :
  PC.ctor_move this rhs s = Some (tt, s') → astep s s'.
Proof.
  intros H. cpp_unfold.
  destruct (handles s !! rhs) as [[p r]|] eqn:Hrhs; [|done].
  destruct (handles s !! this) eqn:Hthis;
    repeat (simplify_map_eq; simpl in * ).
  assert (this ≠ rhs) by congruence.
  repeat (simplify_map_eq; simpl in * ).
  eapply (astep_transfer this rhs (Handle p r)); [by left | done | done | |];
    simpl; by rewrite ?insert_insert_eq.
Qed.

Lemma assign_copy_astep this rhs r s s' :
  PC.assign_copy this rhs s = Some (r, s') → rtc astep s s'.
Proof.
  unfold PC.assign_copy. intros (u & s2 & H & Hret)%bind_Some.
  cbv [ret] in Hret. injection Hret as <- <-.
  case_decide as Hne; [|cbv [ret] in H; by simplify_eq].
  apply bind_Some in H as ([] & s1 & Hrel & H).
  apply release_astep in Hrel as [Hstep Hreleased].
  eapply rtc_l; [exact Hstep|]. apply rtc_once.
  unfold released in Hreleased. cpp_unfold.
  destruct (handles s1 !! rhs) as [[p q]|] eqn:Hrhs;
    repeat (simplify_map_eq; simpl in * ).
  eapply (astep_share this rhs (Handle p q)); [by right | done | done | |].
  - cpp_cases; simpl; by rewrite ?insert_insert_eq.
  - simpl. destruct p as [p|]; repeat (simplify_map_eq; simpl in * ); [|done].
    destruct q as [c|]; [|done].
    destruct (counts s1 !! c) as [[z|]|] eqn:Hc;
      repeat (simplify_map_eq; simpl in * ).
    case_decide; repeat (simplify_map_eq; simpl in * ).
    exists c, z. done.
Qed.

Lemma assign_move_astep this rhs r s s' :
  PC.assign_move this rhs s = Some (r, s') → rtc astep s s'.
Proof.
  unfold PC.assign_move. intros ([] & s0 & Hprint & H)%bind_Some.
  assert (astep s s0) as Hs0.
  { cbv [print with_cout] in Hprint. injection Hprint as <-.
    by apply astep_same. }
  eapply rtc_l; [exact Hs0|]. clear Hprint Hs0.
  apply bind_Some in H as (u & s2 & H & Hret).
  cbv [ret] in Hret. injection Hret as <- <-.
  case_decide as Hne; [|cbv [ret] in H; by simplify_eq].
  apply bind_Some in H as ([] & s1 & Hrel & H).
  apply release_astep in Hrel as [Hstep Hreleased].
  eapply rtc_l; [exact Hstep|]. apply rtc_once.
  unfold released in Hreleased. cpp_unfold.
  destruct (handles s1 !! rhs) as [[p q]|] eqn:Hrhs;
    repeat (simplify_map_eq; simpl in * ).
  eapply (astep_transfer this rhs (Handle p q)); [by right | done | done | |];
    simpl; by rewrite ?insert_insert_eq.
Qed.

Lemma main_assign_move_astep this rhs r s s' :
  Main.assign_move this rhs s = Some (r, s') → rtc astep_main s s'.
Proof.
  unfold Main.assign_move. intros (u & s2 & H & Hret)%bind_Some.
  cbv [ret] in Hret. injection Hret as <- <-.
  case_decide as Hne; [|cbv [ret] in H; by simplify_eq].
  apply bind_Some in H as ([] & s1 & Hrel & H).
  rewrite release_agree in Hrel.
  apply release_astep in Hrel as [Hstep Hreleased].
  eapply rtc_l; [apply astep_main_common, Hstep|]. apply rtc_once.
  unfold released in Hreleased. cpp_unfold.
  destruct (handles s1 !! rhs) as [[p q]|] eqn:Hrhs;
    repeat (simplify_map_eq; simpl in * ).
  eapply (astep_main_transfer this rhs (Handle p q));
    [by right | done | done | |]; simpl; by rewrite ?insert_insert_eq.
Qed.

Lemma clone_astep this b s s' :
  PC.clone this s = Some (b, s') → astep s s'.
Proof.
  intros H. cpp_unfold.
  destruct (handles s !! this) as [[p r]|] eqn:Hthis; [|done].
  destruct p as [p|]; repeat (simplify_map_eq; simpl in * );
    [|by apply astep_same].
  destruct r as [c|]; [|done].
  destruct (counts s !! c) as [[z|]|] eqn:Hc;
    repeat (simplify_map_eq; simpl in * ).
  case_bool_decide as Hz; repeat (simplify_map_eq; simpl in * );
    [by apply astep_same|].
  destruct (values s !! p) as [[v|]|] eqn:Hv;
    repeat (simplify_map_eq; simpl in * ).
  case_decide; repeat (simplify_map_eq; simpl in * ).
  set (c' := fresh (dom (<[c:=Live (z - 1)]> (counts s)))).
  assert (<[c:=Live (z - 1)]> (counts s) !! c' = None) as Hc'.
  { apply not_elem_of_dom, is_fresh. }
  apply lookup_insert_None in Hc' as [Hc' Hcc].
  eapply (astep_clone this p c z _ c'); try done.
  simpl. by rewrite insert_insert_eq.
Qed.

Lemma dtor_astep this s s' :
  PC.dtor this s = Some (tt, s') → rtc astep s s'.
Proof.
  unfold PC.dtor. intros ([] & s1 & Hrel & H)%bind_Some.
  apply release_astep in Hrel as [Hstep Hreleased].
  eapply rtc_l; [exact Hstep|]. apply rtc_once.
  cbv [destruct_object with_handles] in H.
  destruct (handles s1 !! this) eqn:Hthis; simplify_eq.
  by apply astep_drop with this.
Qed.

Lemma alive_inv this s s' : alive this s = Some (tt, s') → s' = s.
Proof. cbv [alive]. by destruct (handles s !! this); intros; simplify_eq. Qed.

Lemma ref_count_inv this z s s' :
  PC.ref_count this s = Some (z, s') →
  s' = s ∧ ∃ h c, handles s !! this = Some h ∧ ref_ h = Some c ∧
                  counts s !! c = Some (Live z).
Proof. intros H. cpp_unfold. cpp_cases. eauto 10. Qed.

Lemma deref_inv this a s s' : PC.deref this s = Some (a, s') → s' = s.
Proof. intros H. cpp_unfold. by cpp_cases. Qed.

Lemma arrow_inv this a s s' : PC.arrow this s = Some (a, s') → s' = s.
Proof. intros H. cpp_unfold. by cpp_cases. Qed.
End Refinement.


(** ** Reachable states satisfy the invariants *)
Section Reachability.
Context {T : Type}.
Implicit Types (s : state T) (this rhs k : hid) (c : loc) (o : op T).

Lemma exec_astep o r s s' :
  exec PC_class o s = Some (r, s') → rtc astep s s'.
Proof.
  destruct o; simpl; intros H;
    repeat match goal with
      | H : bind _ _ _ = Some _ |- _ =>
          apply bind_Some in H as (? & ? & ? & H)
      | H : alive _ _ = Some (?u, _) |- _ =>
          destruct u; apply alive_inv in H as ->
      | H : ret _ _ = Some _ |- _ => cbv [ret] in H; injection H as <- <-
      end.
  - apply rtc_once. cbv [new_T with_values] in *. simplify_eq.
    by apply astep_same.
  - destruct x. eauto using rtc_once, ctor_default_astep.
  - eauto using rtc_once, ctor_raw_astep.
  - eauto using rtc_once, ctor_raw_rvalue_astep.
  - destruct x1. eauto using rtc_once, ctor_copy_astep.
  - destruct x1. eauto using rtc_once, ctor_move_astep.
  - eauto using assign_copy_astep.
  - eauto using assign_move_astep.
  - eauto using rtc_once, clone_astep.
  - match goal with H : PC.ref_count _ _ = _ |- _ =>
      apply ref_count_inv in H as [-> _] end. done.
  - match goal with H : PC.deref _ _ = _ |- _ => apply deref_inv in H as -> end.
    done.
  - match goal with H : PC.arrow _ _ = _ |- _ => apply arrow_inv in H as -> end.
    done.
  - destruct x1. eauto using dtor_astep.
Qed.

Lemma exec_astep_main o r s s' :
  exec Main_class o s = Some (r, s') → rtc astep_main s s'.
Proof.
  intros H.
  assert ((∃ this rhs, o = AssignMove this rhs) ∨
          ∀ this rhs, o ≠ AssignMove this rhs) as [(this & rhs & ->) | Hne].
  { destruct o; eauto; right; done. }
  - simpl in H.
    repeat match goal with
      | H : bind _ _ _ = Some _ |- _ =>
          apply bind_Some in H as (? & ? & ? & H)
      | H : alive _ _ = Some (?u, _) |- _ =>
          destruct u; apply alive_inv in H as ->
      | H : ret _ _ = Some _ |- _ => cbv [ret] in H; injection H as <- <-
      end.
    simpl in *. eauto using main_assign_move_astep.
  - rewrite exec_agree in H by done.
    eapply rtc_subrel; [|by eapply exec_astep]. apply astep_main_common.
Qed.

Lemma run_astep os rs s s' :
  run PC_class os s = Some (rs, s') → rtc astep s s'.
Proof.
  revert rs s. induction os as [|o os IH]; simpl; intros rs s H.
  - cbv [ret] in H. by simplify_eq.
  - apply bind_Some in H as (r & s1 & Ho & H).
    apply bind_Some in H as (rs' & s2 & Hos & H).
    cbv [ret] in H. injection H as <- <-.
    etrans; [by eapply exec_astep | by eapply IH].
Qed.

Lemma run_astep_main os rs s s' :
  run Main_class os s = Some (rs, s') → rtc astep_main s s'.
Proof.
  revert rs s. induction os as [|o os IH]; simpl; intros rs s H.
  - cbv [ret] in H. by simplify_eq.
  - apply bind_Some in H as (r & s1 & Ho & H).
    apply bind_Some in H as (rs' & s2 & Hos & H).
    cbv [ret] in H. injection H as <- <-.
    etrans; [by eapply exec_astep_main | by eapply IH].
Qed.

Lemma init_exact_inv : exact_inv (@init T).
Proof. split; intros k h; intros; simplify_map_eq. Qed.

Lemma init_positive_inv : positive_inv (@init T).
Proof. split; intros k h; intros; simplify_map_eq. Qed.

Lemma exact_inv_positive s : exact_inv s → positive_inv s.
Proof.
  intros [Hal Hex]. split; [done|].
  intros k h p c z Hk Hp Hr Hc.
  destruct (Hex k h p Hk Hp) as (c1 & Hr1 & Hc1 & _).
  pose proof (alias_count_lookup c k h (handles s) Hk Hr). simplify_eq. lia.
Qed.

Lemma reachable_state_after (C : smart_ptr T) os :
  is_Some (run C os init) → reachable C (state_after C os).
Proof.
  unfold state_after. intros [[rs s] Hrun]. rewrite Hrun. by exists os, rs.
Qed.

(** I2 holds in every state a program over the [PC] class can reach. *)
Lemma reachable_exact_inv s : reachable PC_class s → exact_inv s.
Proof.
  intros (os & rs & Hrun). apply run_astep in Hrun. revert s Hrun.
  apply (rtc_ind_r (λ s, exact_inv s)); eauto using init_exact_inv, exact_inv_astep.
Qed.

Lemma reachable_positive_inv C s :
  source_class C → reachable C s → positive_inv s.
Proof.
  intros [-> | ->] (os & rs & Hrun).
  - apply exact_inv_positive, reachable_exact_inv. by exists os, rs.
  - apply run_astep_main in Hrun. revert s Hrun.
    apply (rtc_ind_r (λ s, positive_inv s));
      eauto using init_positive_inv, positive_inv_astep_main.
Qed.
End Reachability.


(** ** What a single call does *)
Section Release.
Context {T : Type}.
Implicit Types (s : state T) (this rhs k : hid) (c : loc).

(** What [release()] leaves behind, member by member. *)
Lemma release_inv this s s' :
  PC.release this s = Some (tt, s') →
  ∃ h, handles s !! this = Some h ∧
       handles s' = <[this := Handle None None]> (handles s) ∧
       cout s' = cout s ∧
       (∀ c, ref_ h ≠ Some c → counts s' !! c = counts s !! c) ∧
       (∀ p, ptr_ h ≠ Some p → values s' !! p = values s !! p) ∧
       (∀ c z, ref_ h = Some c → counts s !! c = Some (Live z) →
               counts s' !! c =
                 Some (if decide (z = 1) then Freed else Live (z - 1)) ∧
               (z ≠ 1 → values s' = values s)).
Proof.
  intros H. cpp_unfold.
  destruct (handles s !! this) as [[p r]|] eqn:Hh; [|done].
  exists (Handle p r). split; [done|].
  destruct r as [c|]; repeat (simplify_map_eq; simpl in * ).
  - destruct (counts s !! c) as [[z|]|] eqn:Hc;
      repeat (simplify_map_eq; simpl in * ).
    case_decide; repeat (simplify_map_eq; simpl in * ).
    case_decide as Hz; repeat (simplify_map_eq; simpl in * ).
    + destruct p as [p|]; repeat (simplify_map_eq; simpl in * ).
      * destruct (values s !! p) as [[v|]|] eqn:Hv;
          repeat (simplify_map_eq; simpl in * ).
        rewrite insert_insert_eq. repeat split; try done.
        -- intros c' Hc'. rewrite !lookup_insert_ne by congruence. done.
        -- intros p' Hp'. rewrite !lookup_insert_ne by congruence. done.
        -- intros; simplify_eq. rewrite lookup_insert_eq.
           by rewrite decide_True by lia.
        -- intros; simplify_eq. lia.
      * rewrite insert_insert_eq. repeat split; try done.
        -- intros c' Hc'. rewrite !lookup_insert_ne by congruence. done.
        -- intros; simplify_eq. rewrite lookup_insert_eq.
           by rewrite decide_True by lia.
    + rewrite insert_insert_eq. repeat split; try done.
      * intros c' Hc'. rewrite !lookup_insert_ne by congruence. done.
      * intros; simplify_eq. rewrite lookup_insert_eq.
        by rewrite decide_False by lia.
  - rewrite insert_insert_eq. repeat split; try done.
Qed.
End Release.

Section Calls.
Context {T : Type}.
Implicit Types (s : state T) (this rhs k : hid) (c : loc) (C : smart_ptr T).

Lemma ref_count_lookup C s k hk c z :
  source_class C → handles s !! k = Some hk → ref_ hk = Some c →
  counts s !! c = Some (Live z) → ref_count C k s = Some (z, s).
Proof.
  intros HC Hk Hr Hc.
  assert (ref_count C = PC.ref_count) as -> by (by destruct HC as [-> | ->]).
  cpp_unfold. rewrite Hk. simpl. rewrite Hr, Hc. done.
Qed.

(** [release()] neither reads nor writes [cout]. *)
Lemma release_with_cout f this s s' :
  PC.release this s = Some (tt, s') →
  PC.release this (with_cout f s) = Some (tt, with_cout f s').
Proof.
  intros H. cpp_unfold.
  destruct (handles s !! this) as [[p r]|] eqn:Hh; [|done].
  destruct r as [c|]; repeat (simplify_map_eq; simpl in * ); [|done].
  destruct (counts s !! c) as [[z|]|] eqn:Hc;
    repeat (simplify_map_eq; simpl in * ).
  case_decide; repeat (simplify_map_eq; simpl in * ).
  case_decide; repeat (simplify_map_eq; simpl in * ); [|done].
  destruct p as [p|]; repeat (simplify_map_eq; simpl in * ); [|done].
  destruct (values s !! p) as [[v|]|] eqn:Hv;
    repeat (simplify_map_eq; simpl in * ).
  done.
Qed.

(** The two classes are told apart by what move assignment prints. *)
Lemma main_class_not_pc : @Main_class T ≠ PC_class.
Proof.
  intros Heq.
  apply (f_equal (λ C, cout ∘ snd <$> assign_move C 1%positive 1%positive init))
    in Heq.
  discriminate.
Qed.

(** C1 (as amended).  In every state a program can reach, with either
    definition of the class, a handle whose share count reads 0 is empty;
    and a handle that has just been default-constructed is empty and
    reads 0.  (The converse of the first part fails: see
    [count_zero_iff_empty_counterexample].) *)
Theorem count_zero_only_if_empty C s this :
  source_class C →
  (reachable C s → ref_count C this s = Some (0, s) → empty s this) ∧
  (handles s !! this = None →
     ∃ s', ctor_default C this s = Some (tt, s') ∧ empty s' this ∧
           ref_count C this s' = Some (0, s')).
Proof.
  intros HC. split.
  - intros Hreach Hzero.
    destruct (reachable_positive_inv C s HC Hreach) as [_ Hpos].
    assert (ref_count C = PC.ref_count) as Heq
      by (by destruct HC as [-> | ->]).
    rewrite Heq in Hzero.
    apply ref_count_inv in Hzero as (_ & h & c & Hh & Hr & Hc).
    exists h. split; [done|].
    destruct (ptr_ h) as [p|] eqn:Hp; [|done].
    pose proof (Hpos this h p c 0 Hh Hp Hr Hc). lia.
  - intros Hthis.
    assert (ctor_default C = PC.ctor_default ∧ ref_count C = PC.ref_count)
      as [-> ->] by (by destruct HC as [-> | ->]).
    eexists. split.
    { cpp_unfold. rewrite Hthis. reflexivity. }
    split.
    + eexists. split; [simpl; apply lookup_insert_eq | done].
    + cpp_unfold. repeat (rewrite lookup_insert_eq; simpl). done.
Qed.

(** C2.  [clone()] on an empty handle, or on a handle whose count is 1,
    returns false and leaves the state as it was.  On a handle that holds
    a live value [v] with count [z >= 2] it returns true; afterwards the
    handle points to a newly allocated value with the same content [v] and
    to a newly allocated count that reads 1, the count it left reads
    [z - 1], and the value it left is untouched. *)
Theorem clone_spec C s this h :
  source_class C → handles s !! this = Some h →
  (ptr_ h = None → clone C this s = Some (false, s)) ∧
  (∀ c, ref_ h = Some c → counts s !! c = Some (Live 1) →
        clone C this s = Some (false, s)) ∧
  (∀ p c z v,
     ptr_ h = Some p → ref_ h = Some c →
     counts s !! c = Some (Live z) → 2 ≤ z →
     values s !! p = Some (Live v) →
     ∃ s' p' c',
       clone C this s = Some (true, s') ∧
       values s !! p' = None ∧ counts s !! c' = None ∧
       handles s' = <[this := Handle (Some p') (Some c')]> (handles s) ∧
       values s' = <[p' := Live v]> (values s) ∧
       counts s' = <[c' := Live 1]> (<[c := Live (z - 1)]> (counts s)) ∧
       ref_count C this s' = Some (1, s') ∧
       counts s' !! c = Some (Live (z - 1)) ∧
       values s' !! p = Some (Live v)).
Proof.
  intros HC Hh.
  assert (clone C = PC.clone ∧ ref_count C = PC.ref_count) as [-> ->].
  { by destruct HC as [-> | ->]. }
  destruct h as [hp hr]. simpl. split; [|split].
  - intros ->. cpp_unfold. rewrite Hh. simpl. by rewrite ?state_eta.
  - intros c -> Hc. cpp_unfold. rewrite Hh. simpl.
    destruct hp as [p|]; simpl; [|by rewrite ?state_eta].
    rewrite Hh. simpl. rewrite Hc. simpl. by rewrite ?state_eta.
  - intros p c z v -> -> Hc Hz Hv.
    set (p' := fresh (dom (values s))).
    set (c' := fresh (dom (<[c:=Live (z - 1)]> (counts s)))).
    assert (values s !! p' = None) as Hp' by apply fresh_value.
    assert (<[c:=Live (z - 1)]> (counts s) !! c' = None) as Hc'.
    { apply not_elem_of_dom, is_fresh. }
    apply lookup_insert_None in Hc' as [Hc' Hcc].
    eexists _, p', c'. split; [|split; [done|split; [done|]]].
    + cpp_unfold.
      repeat first
        [ rewrite Hh | rewrite Hc | rewrite Hv | rewrite lookup_insert_eq
        | rewrite bool_decide_false by lia
        | rewrite decide_True by (unfold INT_MIN; lia)
        | progress simpl ].
      reflexivity.
    + simpl. fold p' c'. rewrite !insert_insert_eq. repeat split.
      * cpp_unfold. rewrite lookup_insert_eq. simpl.
        rewrite lookup_insert_eq. reflexivity.
      * rewrite lookup_insert_ne by done. by rewrite lookup_insert_eq.
      * rewrite lookup_insert_ne by congruence. done.
Qed.

(** C3.  [operator*] and [operator->] throw [null_ptr_exception] exactly
    when the handle is empty; on a handle that holds a value they return
    its address, and in either case they leave the state unchanged. *)
Theorem access_throws_iff_empty C s this h :
  source_class C → handles s !! this = Some h →
  (deref C this s = Some (Thrown null_ptr_exception, s) ↔ ptr_ h = None) ∧
  (arrow C this s = Some (Thrown null_ptr_exception, s) ↔ ptr_ h = None) ∧
  (∀ p, ptr_ h = Some p →
        deref C this s = Some (Returned p, s) ∧
        arrow C this s = Some (Returned p, s)).
Proof.
  intros [-> | ->] Hh; simpl; cpp_unfold; rewrite Hh;
    destruct (ptr_ h) as [p|]; simpl; repeat split; intros; simplify_eq; done.
Qed.

(** C4 (as amended).  Between two distinct handles, move construction
    hands the members of the source to the new handle, clears both members
    of the source and changes no count.  Move assignment first releases
    the destination's previous share and then hands over the members of
    the source; the source's value pointer is cleared, and in the [PC]
    class so is its count pointer.  The count cell of the source keeps its
    value unless the destination shared it before the call, in which case
    it loses the destination's share: it goes down by one. *)
Theorem move_transfers C s this rhs h :
  source_class C → this ≠ rhs → handles s !! rhs = Some h →
  (* move construction *)
  (handles s !! this = None →
     ∃ s', ctor_move C this rhs s = Some (tt, s') ∧
           handles s' =
             <[rhs := Handle None None]> (<[this := h]> (handles s)) ∧
           counts s' = counts s ∧ values s' = values s) ∧
  (* move assignment *)
  (∀ h0 s1,
     handles s !! this = Some h0 → PC.release this s = Some (tt, s1) →
     ∃ s' h',
       assign_move C this rhs s = Some (this, s') ∧
       handles s' = <[rhs := h']> (<[this := h]> (handles s)) ∧
       ptr_ h' = None ∧ (C = PC_class → ref_ h' = None) ∧
       counts s' = counts s1 ∧ values s' = values s1 ∧
       (∀ c, ref_ h0 ≠ Some c → counts s' !! c = counts s !! c) ∧
       (∀ c z, ref_ h0 = Some c → counts s !! c = Some (Live z) → z ≠ 1 →
               counts s' !! c = Some (Live (z - 1)))).
Proof.
  intros HC Hne Hrhs. destruct h as [hp hr]. split.
  - intros Hthis.
    assert (ctor_move C = PC.ctor_move) as ->
      by (by destruct HC as [-> | ->]).
    eexists. split.
    { cpp_unfold.
      repeat first [ rewrite Hrhs | rewrite Hthis | rewrite lookup_insert_eq
                   | rewrite lookup_insert_ne by done | progress simpl ].
      reflexivity. }
    simpl. by rewrite insert_insert_eq.
  - intros h0 s1 Hthis Hrel.
    destruct (release_inv _ _ _ Hrel)
      as (h0' & Hthis' & Hh1 & _ & Hc1 & _ & Hz1). simplify_eq.
    assert (handles s1 !! rhs = Some (Handle hp hr)) as Hrhs1.
    { by rewrite Hh1, lookup_insert_ne. }
    assert (handles s1 !! this = Some (Handle None None)) as Hthis1.
    { by rewrite Hh1, lookup_insert_eq. }
    assert (∀ c z, ref_ h0 = Some c → counts s !! c = Some (Live z) →
                   z ≠ 1 → counts s1 !! c = Some (Live (z - 1))) as Hdec.
    { intros c z Hr Hc Hz. destruct (Hz1 c z Hr Hc) as [-> _].
      by rewrite decide_False. }
    destruct HC as [-> | ->]; simpl.
    + eexists _, (Handle None None). split.
      { unfold PC.assign_move, bind, print at 1.
        rewrite decide_True by done.
        rewrite (release_with_cout _ _ _ _ Hrel). clear Hrel. cpp_unfold.
        repeat first [ rewrite Hrhs1 | rewrite Hthis1
                     | rewrite lookup_insert_eq
                     | rewrite lookup_insert_ne by done | progress simpl ].
        reflexivity. }
      simpl. rewrite Hh1, !insert_insert_eq. repeat split; done.
    + eexists _, (Handle None hr). split.
      { unfold Main.assign_move, bind.
        rewrite decide_True by done. rewrite release_agree, Hrel.
        clear Hrel. cpp_unfold.
        repeat first [ rewrite Hrhs1 | rewrite Hthis1
                     | rewrite lookup_insert_eq
                     | rewrite lookup_insert_ne by done | progress simpl ].
        reflexivity. }
      simpl. rewrite Hh1, !insert_insert_eq.
      repeat split; try done. intros Heq. by destruct main_class_not_pc.
Qed.

(** Invariant I2 as the query shows it.  In every state a program over
    the [PC] class can reach, the share-count query on a handle that holds
    a value returns the number of live handles that share its count, which
    is at least 1, and all of these hold the same value.  For any handle
    whose count pointer refers to a live count the query returns that
    count. *)
Theorem ref_count_of_owner s this h :
  reachable PC_class s → handles s !! this = Some h →
  (∀ p, ptr_ h = Some p →
     ∃ c, ref_ h = Some c ∧
          ref_count PC_class this s =
            Some (Z.of_nat (alias_count c (handles s)), s) ∧
          (1 ≤ alias_count c (handles s))%nat ∧
          ∀ this' h', handles s !! this' = Some h' → ref_ h' = Some c →
                      ptr_ h' = Some p) ∧
  (∀ c z, ref_ h = Some c → counts s !! c = Some (Live z) →
          ref_count PC_class this s = Some (z, s)).
Proof.
  intros Hreach Hh. split.
  - intros p Hp.
    destruct (reachable_exact_inv s Hreach) as [_ Hex].
    destruct (Hex this h p Hh Hp) as (c & Hr & Hc & Hsh).
    exists c. split; [done|]. split; [|split; [|done]].
    + eapply ref_count_lookup; eauto. by left.
    + by eapply alias_count_lookup.
  - intros c z Hr Hc. eapply ref_count_lookup; eauto. by left.
Qed.

(** C7 (as amended).  Copying an empty handle, by construction or by
    assignment, increments nothing.  Copy construction from a handle that
    holds a value makes the new handle share value and count and raises
    the count by exactly 1, as read through every handle that shares it.
    Copy assignment from such a handle first releases the destination's
    previous share: when the destination did not share the source's count
    the count ends 1 above its old value; when it did, the count ends
    where it started. *)
Theorem copy_shares_and_counts C s this rhs h :
  source_class C → this ≠ rhs → handles s !! rhs = Some h →
  (* copying an empty handle: no increment *)
  (ptr_ h = None →
     (handles s !! this = None →
        ∃ s', ctor_copy C this rhs s = Some (tt, s') ∧
              handles s' = <[this := h]> (handles s) ∧
              counts s' = counts s) ∧
     (∀ s1, PC.release this s = Some (tt, s1) →
        ∃ s', assign_copy C this rhs s = Some (this, s') ∧
              handles s' = <[this := h]> (handles s) ∧
              counts s' = counts s1)) ∧
  (* copying a handle that holds a value *)
  (∀ p c z,
     ptr_ h = Some p → ref_ h = Some c →
     counts s !! c = Some (Live z) → z < INT_MAX →
     (handles s !! this = None →
        ∃ s', ctor_copy C this rhs s = Some (tt, s') ∧
              handles s' = <[this := h]> (handles s) ∧
              counts s' = <[c := Live (z + 1)]> (counts s) ∧
              ∀ k hk, handles s' !! k = Some hk → ref_ hk = Some c →
                      ref_count C k s' = Some (z + 1, s')) ∧
     (∀ h0 s1, handles s !! this = Some h0 → ref_ h0 ≠ Some c →
        PC.release this s = Some (tt, s1) →
        ∃ s', assign_copy C this rhs s = Some (this, s') ∧
              handles s' = <[this := h]> (handles s) ∧
              counts s' = <[c := Live (z + 1)]> (counts s1) ∧
              ∀ k hk, handles s' !! k = Some hk → ref_ hk = Some c →
                      ref_count C k s' = Some (z + 1, s')) ∧
     (∀ h0, handles s !! this = Some h0 → ref_ h0 = Some c →
        z ≠ 1 → INT_MIN < z →
        ∃ s', assign_copy C this rhs s = Some (this, s') ∧
              handles s' = <[this := h]> (handles s) ∧
              ∀ k hk, handles s' !! k = Some hk → ref_ hk = Some c →
                      ref_count C k s' = Some (z, s'))).
Proof.
  intros HC Hne Hrhs.
  assert (ctor_copy C = PC.ctor_copy ∧ assign_copy C = PC.assign_copy)
    as [-> ->] by (by destruct HC as [-> | ->]).
  destruct h as [hp hr]. simpl. split.
  - intros ->. split.
    + intros Hthis. eexists. split.
      { cpp_unfold.
        repeat first [ rewrite Hrhs | rewrite Hthis | rewrite lookup_insert_eq
                     | progress simpl ].
        reflexivity. }
      done.
    + intros s1 Hrel. destruct (release_inv _ _ _ Hrel)
        as (h0 & Hthis & Hh1 & _).
      assert (handles s1 !! rhs = Some (Handle None hr)) as Hrhs1.
      { by rewrite Hh1, lookup_insert_ne. }
      assert (handles s1 !! this = Some (Handle None None)) as Hthis1.
      { by rewrite Hh1, lookup_insert_eq. }
      eexists. split.
      { unfold PC.assign_copy, bind. rewrite decide_True by done.
        rewrite Hrel. clear Hrel. cpp_unfold.
        repeat first [ rewrite Hrhs1 | rewrite Hthis1
                     | rewrite lookup_insert_eq
                     | rewrite lookup_insert_ne by done | progress simpl ].
        reflexivity. }
      simpl. by rewrite Hh1, !insert_insert_eq.
  - intros p c z -> -> Hc Hz. split; [|split].
    + intros Hthis. eexists. split.
      { cpp_unfold.
        repeat first [ rewrite Hrhs | rewrite Hthis | rewrite Hc
                     | rewrite lookup_insert_eq
                     | rewrite decide_True by done | progress simpl ].
        reflexivity. }
      split; [done|]. split; [done|].
      intros k hk Hk Hr. eapply ref_count_lookup; eauto.
      simpl. by rewrite lookup_insert_eq.
    + intros h0 s1 Hthis Hr0 Hrel. destruct (release_inv _ _ _ Hrel)
        as (h0' & Hthis' & Hh1 & _ & Hc1 & _). simplify_eq.
      assert (handles s1 !! rhs = Some (Handle (Some p) (Some c))) as Hrhs1.
      { by rewrite Hh1, lookup_insert_ne. }
      assert (handles s1 !! this = Some (Handle None None)) as Hthis1.
      { by rewrite Hh1, lookup_insert_eq. }
      specialize (Hc1 c Hr0). rewrite Hc in Hc1.
      eexists. split.
      { unfold PC.assign_copy, bind. rewrite decide_True by done.
        rewrite Hrel. clear Hrel. cpp_unfold.
        repeat first [ rewrite Hrhs1 | rewrite Hthis1 | rewrite Hc1
                     | rewrite lookup_insert_eq
                     | rewrite lookup_insert_ne by done
                     | rewrite decide_True by done | progress simpl ].
        reflexivity. }
      split; [simpl; by rewrite Hh1, !insert_insert_eq|]. split; [done|].
      intros k hk Hk Hr. eapply ref_count_lookup; eauto.
      simpl. by rewrite lookup_insert_eq.
    + intros h0 Hthis Hr0 Hz1 Hzmin.
      destruct h0 as [p0 r0]. simpl in Hr0. subst r0.
      eexists. split.
      { unfold PC.assign_copy. cpp_unfold. rewrite decide_True by done.
        repeat first [ rewrite Hrhs | rewrite Hthis | rewrite Hc
                     | rewrite lookup_insert_eq
                     | rewrite lookup_insert_ne by done
                     | rewrite decide_True by lia
                     | rewrite decide_False by lia | progress simpl ].
        reflexivity. }
      split; [simpl; by rewrite !insert_insert_eq|].
      intros k hk Hk Hr. eapply ref_count_lookup; eauto.
      simpl. rewrite lookup_insert_eq. do 2 f_equal. lia.
Qed.

(** C8.  Copy-assigning a handle to itself returns with the state
    unchanged; move-assigning a handle to itself leaves every handle,
    every count and every value unchanged: nothing is released. *)
Theorem self_assignment_noop C s this :
  source_class C →
  assign_copy C this this s = Some (this, s) ∧
  ∃ s', assign_move C this this s = Some (this, s') ∧
        handles s' = handles s ∧ counts s' = counts s ∧
        values s' = values s.
Proof.
  intros [-> | ->]; simpl; cpp_unfold; (case_decide; [done|]); simpl;
    (split; [by rewrite ?state_eta|]); eexists; (split; [reflexivity|]);
    simpl; done.
Qed.

(** C9.  Either raw-pointer constructor, called with a null pointer,
    yields a handle that is empty, on which [operator*] and [operator->]
    throw, and whose share count reads 1. *)
Theorem null_raw_pointer_handle C s this :
  source_class C → handles s !! this = None →
  ∃ s',
    ctor_raw C this None s = Some (None, s') ∧
    ctor_raw_rvalue C this None s = Some (None, s') ∧
    empty s' this ∧
    deref C this s' = Some (Thrown null_ptr_exception, s') ∧
    arrow C this s' = Some (Thrown null_ptr_exception, s') ∧
    ref_count C this s' = Some (1, s').
Proof.
  intros [-> | ->] Hfresh; simpl; cpp_unfold; rewrite Hfresh;
    (eexists; repeat split;
      [ eexists; split; [apply lookup_insert_eq | reflexivity]
      | simpl; repeat (rewrite lookup_insert_eq; simpl); reflexivity .. ]).
Qed.
End Calls.

(** ** Concrete runs, with [int] pointees *)
Section Runs.
Local Open Scope positive_scope.

(** [int* p{new int{42}}; smart_ptr<int> sp1{p}; smart_ptr<int> sp2{sp1};]
    as in [main()]: two handles, at addresses 1 and 2, share the value. *)
Lemma two_owners_run (C : smart_ptr Z) :
  source_class C →
  let s := state_after C [New 42%Z; CtorRaw 1 (Some 1); CtorCopy 2 1] in
  reachable C s ∧
  handles s !! 1 = Some (Handle (Some 1) (Some 1)) ∧
  handles s !! 2 = Some (Handle (Some 1) (Some 1)) ∧
  counts s !! 1 = Some (Live 2%Z) ∧
  values s !! 1 = Some (Live 42%Z).
Proof.
  intros [-> | ->]; (split; [apply reachable_state_after|]);
    vm_compute; eauto.
Qed.

(** The first part of [main()], with the counts its comments announce:
    [sp1] at address 1, [sp2] at 2, [sp3] at 3, [sp4] at 4; the last
    action is the dereference of the moved-from [sp1] that [main()]
    leaves commented out. *)
Lemma main_int_scenario (f : file) :
  fst <$> run (class_of f)
    [New 42%Z; CtorRaw 1 (Some 1); RefCount 1;
     CtorCopy 2 1; RefCount 1; RefCount 2; Dtor 2;
     RefCount 1;
     CtorDefault 3; RefCount 3;
     AssignCopy 3 1; RefCount 1; RefCount 3;
     CtorMove 4 1; Deref 4; Deref 3; Deref 1] init =
  Some [RNew 1; RRaw (Some 1); RInt 1%Z;
        RVoid; RInt 2%Z; RInt 2%Z; RVoid;
        RInt 1%Z;
        RVoid; RInt 0%Z;
        RThis 3; RInt 2%Z; RInt 2%Z;
        RVoid; RAccess (Returned 1); RAccess (Returned 1);
        RAccess (Thrown null_ptr_exception)].
Proof. destruct f; vm_compute; reflexivity. Qed.

(** The part of [main()] on [dsp1], [dsp2], [dsp3] (addresses 1, 2, 3;
    314 stands for 3.14): counts 3 3 3, then 1 2 2 after [dsp1.clone()],
    and the three handles still read the same content. *)
Lemma main_clone_scenario (f : file) :
  let os : list (op Z) :=
    [New 314%Z; CtorRawRvalue 1 (Some 1); CtorDefault 2; CtorDefault 3;
     AssignCopy 2 1; AssignCopy 3 2;
     RefCount 1; RefCount 2; RefCount 3;
     Clone 1;
     RefCount 1; RefCount 2; RefCount 3;
     Deref 1; Deref 2; Deref 3] in
  fst <$> run (class_of f) os init =
    Some [RNew 1; RRaw None; RVoid; RVoid;
          RThis 2; RThis 3;
          RInt 3%Z; RInt 3%Z; RInt 3%Z;
          RBool true;
          RInt 1%Z; RInt 2%Z; RInt 2%Z;
          RAccess (Returned 2); RAccess (Returned 1); RAccess (Returned 1)] ∧
  values (state_after (class_of f) os) !! 1 = Some (Live 314%Z) ∧
  values (state_after (class_of f) os) !! 2 = Some (Live 314%Z).
Proof. destruct f; repeat split; vm_compute; reflexivity. Qed.

Lemma count_zero_only_if_empty_witness :
  let s := state_after (@PC_class Z) [CtorDefault 1] in
  ref_count PC_class 1 s = Some (0%Z, s) ∧ empty s 1.
Proof.
  split; [vm_compute; reflexivity|].
  apply (count_zero_only_if_empty PC_class); [by left | | vm_compute; reflexivity].
  apply reachable_state_after. vm_compute. eauto.
Defined.

Lemma count_zero_iff_empty_counterexample :
  ¬ (∀ (s : state Z) (this : hid),
       reachable PC_class s → is_Some (handles s !! this) →
       (ref_count PC_class this s = Some (0%Z, s) ↔ empty s this)).
Proof.
  intros H.
  destruct (H (state_after PC_class [CtorRaw 1 None]) 1) as [_ Hback].
  - apply reachable_state_after. vm_compute. eauto.
  - vm_compute. eauto.
  - assert (Hcount := Hback ltac:(eexists; split; vm_compute; reflexivity)).
    vm_compute in Hcount. discriminate Hcount.
Qed.

Lemma clone_spec_witness :
  let s := state_after (@PC_class Z) [New 42%Z; CtorRaw 1 (Some 1); CtorCopy 2 1] in
  ∃ s', clone PC_class 1 s = Some (true, s') ∧
        ref_count PC_class 1 s' = Some (1%Z, s') ∧
        ref_count PC_class 2 s' = Some (1%Z, s').
Proof.
  intros s.
  destruct (clone_spec PC_class s 1 (Handle (Some 1) (Some 1)))
    as (_ & _ & Hclone); [by left | vm_compute; reflexivity |].
  destruct (Hclone 1 1 2%Z 42%Z) as (s' & p' & c' & Hc & _ & Hfresh & Hh & _ & Hcs & Hrc & Hold & _);
    [reflexivity | reflexivity | vm_compute; reflexivity | lia
    | vm_compute; reflexivity |].
  exists s'. split; [exact Hc|]. split; [exact Hrc|].
  apply (ref_count_lookup PC_class s' 2 (Handle (Some 1) (Some 1)) 1);
    [by left | | reflexivity | exact Hold].
  rewrite Hh. vm_compute. reflexivity.
Defined.

Lemma access_throws_iff_empty_witness :
  let s := state_after (@PC_class Z) [New 42%Z; CtorRaw 1 (Some 1); CtorMove 2 1] in
  deref PC_class 1 s = Some (Thrown null_ptr_exception, s) ∧
  deref PC_class 2 s = Some (Returned 1, s).
Proof.
  intros s. split.
  - apply (access_throws_iff_empty PC_class s 1 (Handle None None));
      [by left | vm_compute; reflexivity | reflexivity].
  - apply (access_throws_iff_empty PC_class s 2 (Handle (Some 1) (Some 1)));
      [by left | vm_compute; reflexivity | reflexivity].
Defined.

Lemma self_assignment_noop_witness :
  let s := state_after (@Main_class Z) [New 42%Z; CtorRaw 1 (Some 1)] in
  assign_copy Main_class 1 1 s = Some (1, s).
Proof. intros s. apply (self_assignment_noop Main_class s 1). by right. Defined.

Lemma null_raw_pointer_handle_witness :
  ∃ s' : state Z,
    ctor_raw PC_class 1 None init = Some (None, s') ∧
    ref_count PC_class 1 s' = Some (1%Z, s').
Proof.
  destruct (null_raw_pointer_handle PC_class (@init Z) 1)
    as (s' & Hctor & _ & _ & _ & _ & Hcount);
    [by left | reflexivity |].
  exists s'. split; [exact Hctor | exact Hcount].
Defined.

(** After [sp2 = std::move(sp1)] between two handles that already share a
    value, the count they share has gone from 2 to 1. *)
Lemma move_keeps_count_counterexample :
  ¬ (∀ (s s' : state Z) (this rhs : hid) h c z,
       reachable PC_class s → this ≠ rhs →
       is_Some (handles s !! this) → handles s !! rhs = Some h →
       ref_ h = Some c → counts s !! c = Some (Live z) →
       assign_move PC_class this rhs s = Some (this, s') →
       counts s' !! c = Some (Live z)).
Proof.
  intros H.
  destruct (two_owners_run PC_class) as (Hreach & H1 & H2 & Hc & _);
    [by left|].
  set (s := state_after PC_class [New 42%Z; CtorRaw 1 (Some 1); CtorCopy 2 1])
    in *.
  destruct (assign_move PC_class 2 1 s) as [[r s']|] eqn:Hmove;
    [|by vm_compute in Hmove].
  assert (r = 2) as -> by (vm_compute in Hmove; congruence).
  specialize (H s s' 2 1 _ 1 2%Z Hreach ltac:(done) ltac:(eauto) H1 eq_refl
                Hc Hmove).
  vm_compute in Hmove. injection Hmove as <-.
  vm_compute in H. discriminate H.
Qed.

Lemma move_transfers_witness :
  let s := state_after (@PC_class Z) [New 42%Z; CtorRaw 1 (Some 1)] in
  ∃ s', ctor_move PC_class 2 1 s = Some (tt, s') ∧
        handles s' !! 2 = Some (Handle (Some 1) (Some 1)) ∧
        handles s' !! 1 = Some (Handle None None) ∧
        counts s' = counts s.
Proof.
  intros s.
  destruct (move_transfers PC_class s 2 1 (Handle (Some 1) (Some 1)))
    as [Hctor _]; [by left | done | vm_compute; reflexivity |].
  destruct Hctor as (s' & Hc & Hh & Hcs & _); [vm_compute; reflexivity|].
  exists s'. split; [exact Hc|]. rewrite Hh.
  split; [|split; [|exact Hcs]]; vm_compute; reflexivity.
Defined.

(** A handle made from a null raw pointer is empty, and the query
    answers 1 for it, not 0. *)
Lemma ref_count_total_counterexample :
  ¬ (∀ (s : state Z) (this : hid),
       reachable PC_class s → is_Some (handles s !! this) →
       ∃ z, ref_count PC_class this s = Some (z, s) ∧
            (empty s this → z = 0%Z)).
Proof.
  intros H.
  destruct (H (state_after PC_class [CtorRaw 1 None]) 1) as (z & Hz & Hzero).
  - apply reachable_state_after. vm_compute. eauto.
  - vm_compute. eauto.
  - assert (z = 0%Z) as -> by (apply Hzero; eexists; by vm_compute).
    vm_compute in Hz. discriminate Hz.
Qed.

(** C6.  The claim fails on the code.  After
    [int* p{new int{42}}; smart_ptr<int> sp1{p};
     smart_ptr<int> sp4{std::move(sp1)};], as in [main()], the move
    constructor has set [sp1.ref_] to null, and [sp1.ref_count()], which
    is [return *ref_;] with no guard, reads through the null pointer: it
    does not return 0, its behaviour is undefined, in both files.  The
    destination still reads 1.  The same holds in the [PC] file for the
    source of a move assignment. *)
Theorem moved_from_ref_count_undefined (f : file) :
  let s := state_after (class_of f)
             [New 42%Z; CtorRaw 1 (Some 1); CtorMove 2 1] in
  let s' := state_after (@PC_class Z)
              [New 42%Z; CtorRaw 1 (Some 1); CtorDefault 2; AssignMove 2 1] in
  (run (class_of f) [New 42%Z; CtorRaw 1 (Some 1); CtorMove 2 1] init =
     Some ([RNew 1; RRaw (Some 1); RVoid], s) ∧
   handles s !! 1 = Some (Handle None None) ∧
   empty s 1 ∧
   ref_count (class_of f) 1 s = None ∧
   exec (class_of f) (RefCount 1) s = None ∧
   ref_count (class_of f) 2 s = Some (1%Z, s)) ∧
  (run PC_class
     [New 42%Z; CtorRaw 1 (Some 1); CtorDefault 2; AssignMove 2 1] init =
     Some ([RNew 1; RRaw (Some 1); RVoid; RThis 2], s') ∧
   handles s' !! 1 = Some (Handle None None) ∧
   ref_count PC_class 1 s' = None ∧
   ref_count PC_class 2 s' = Some (1%Z, s')).
Proof.
  destruct f; repeat split; try (vm_compute; reflexivity);
    (eexists; split; vm_compute; reflexivity).
Qed.

Lemma ref_count_of_owner_witness :
  let s := state_after (@PC_class Z) [New 42%Z; CtorRaw 1 (Some 1); CtorCopy 2 1] in
  ref_count PC_class 1 s = Some (Z.of_nat (alias_count 1 (handles s)), s) ∧
  alias_count 1 (handles s) = 2%nat.
Proof.
  intros s.
  destruct (two_owners_run PC_class) as (Hreach & H1 & _); [by left|].
  fold s in Hreach, H1.
  destruct (ref_count_of_owner s 1 _ Hreach H1) as [Hexact _].
  destruct (Hexact 1 eq_refl) as (c & Hr & Hcount & _).
  injection Hr as <-. split; [exact Hcount | vm_compute; reflexivity].
Defined.

(** Copy assignment between two handles that already share a value:
    the count they share is 2 before and 2 after, not 3. *)
Lemma copy_assign_increments_counterexample :
  ¬ (∀ (s s' : state Z) (this rhs : hid) h p c z,
       reachable PC_class s → this ≠ rhs →
       is_Some (handles s !! this) → handles s !! rhs = Some h →
       ptr_ h = Some p → ref_ h = Some c →
       counts s !! c = Some (Live z) →
       assign_copy PC_class this rhs s = Some (this, s') →
       counts s' !! c = Some (Live (z + 1)%Z)).
Proof.
  intros H.
  destruct (two_owners_run PC_class) as (Hreach & H1 & H2 & Hc & _);
    [by left|].
  set (s := state_after PC_class [New 42%Z; CtorRaw 1 (Some 1); CtorCopy 2 1])
    in *.
  destruct (assign_copy PC_class 2 1 s) as [[r s']|] eqn:Hcopy;
    [|by vm_compute in Hcopy].
  assert (r = 2) as -> by (vm_compute in Hcopy; congruence).
  specialize (H s s' 2 1 _ 1 1 2%Z Hreach ltac:(done) ltac:(eauto) H1 eq_refl
                eq_refl Hc Hcopy).
  vm_compute in Hcopy. injection Hcopy as <-.
  vm_compute in H. discriminate H.
Qed.

Lemma copy_shares_and_counts_witness :
  let s := state_after (@PC_class Z) [New 42%Z; CtorRaw 1 (Some 1)] in
  ∃ s', ctor_copy PC_class 2 1 s = Some (tt, s') ∧
        ref_count PC_class 1 s' = Some (2%Z, s') ∧
        ref_count PC_class 2 s' = Some (2%Z, s').
Proof.
  intros s.
  destruct (copy_shares_and_counts PC_class s 2 1 (Handle (Some 1) (Some 1)))
    as [_ Hfull]; [by left | done | vm_compute; reflexivity |].
  destruct (Hfull 1 1 1%Z) as [Hctor _];
    [reflexivity | reflexivity | vm_compute; reflexivity
    | vm_compute; reflexivity |].
  destruct Hctor as (s' & Hc & Hh & _ & Hobs); [vm_compute; reflexivity|].
  exists s'. split; [exact Hc|]. split.
  - apply (Hobs 1 (Handle (Some 1) (Some 1))); [|reflexivity].
    rewrite Hh. vm_compute. reflexivity.
  - apply (Hobs 2 (Handle (Some 1) (Some 1))); [|reflexivity].
    rewrite Hh. vm_compute. reflexivity.
Defined.
End Runs.

(** ** Where the code falls short of the claims *)
Section Defects.
Local Open Scope positive_scope.

(** C5.  The claim fails on the code.  [smart_ptr<int> sp;] followed by
    the end of its scope leaves the count allocated by the default
    constructor behind: [release()] takes it from 0 to -1, which is not 0,
    so nothing is deleted, and no handle points to it any more.  A second
    way: a copy of a handle made from a null raw pointer shares a count
    that stays 1, so the first destructor frees it and the second one
    decrements freed storage. *)
Theorem default_handle_leaks_its_count (f : file) :
  let C : smart_ptr Z := class_of f in
  let s := state_after C [CtorDefault 1; Dtor 1] in
  let s2 := state_after C [CtorRaw 1 None; CtorCopy 2 1; Dtor 1] in
  (run C [CtorDefault 1; Dtor 1] init = Some ([RVoid; RVoid], s) ∧
   handles s = ∅ ∧
   counts s !! 1 = Some (Live (-1)%Z) ∧
   leaked_count s 1) ∧
  (run C [CtorRaw 1 None; CtorCopy 2 1; Dtor 1] init =
     Some ([RRaw None; RVoid; RVoid], s2) ∧
   handles s2 !! 2 = Some (Handle None (Some 1)) ∧
   counts s2 !! 1 = Some Freed ∧
   run C [CtorRaw 1 None; CtorCopy 2 1; Dtor 1; Dtor 2] init = None).
Proof.
  destruct f; repeat split;
    try (vm_compute; reflexivity); try (vm_compute; eauto; fail).
  all: intros this h Hh; vm_compute in Hh; destruct this; discriminate.
Qed.

(** C10.  The claim fails on the code.  After
    [int* p{new int{42}}; smart_ptr<int> sp1{p}; smart_ptr<int> sp2;
     sp2 = std::move(sp1);] the two classes have returned the same results
    but [sp1] differs: [PC] has cleared [sp1.ref_], [main.cpp] has not.
    From there on the programs part ways: the destructor of [sp1] does
    nothing in [PC], while in [main.cpp] it takes the count that [sp2]
    still uses to 0 and frees it, so that a later [sp2.ref_count()] reads
    freed storage. *)
Theorem move_assignment_differs :
  let os : list (op Z) :=
    [New 42%Z; CtorRaw 1 (Some 1); CtorDefault 2; AssignMove 2 1] in
  let rs := [RNew 1; RRaw (Some 1); RVoid; RThis 2] in
  run PC_class os init = Some (rs, state_after PC_class os) ∧
  run Main_class os init = Some (rs, state_after Main_class os) ∧
  handles (state_after PC_class os) !! 1 = Some (Handle None None) ∧
  handles (state_after Main_class os) !! 1 = Some (Handle None (Some 1)) ∧
  fst <$> run PC_class (os ++ [Dtor 1; RefCount 2])%list init =
    Some (rs ++ [RVoid; RInt 1%Z])%list ∧
  run Main_class (os ++ [Dtor 1; RefCount 2])%list init = None.
Proof. repeat split; vm_compute; reflexivity. Qed.
End Defects.


(** ** How each member function changes handles and values *)
Section Shapes.
Context {T : Type}.
Implicit Types (s : state T) (this rhs k : hid) (c p : loc).

(** [release()] changes the values only by deleting the value of a
    handle whose count reads 1. *)
Lemma release_values this s s' :
  PC.release this s = Some (tt, s') →
  values s' = values s ∨
  ∃ p c v, handles s !! this = Some (Handle (Some p) (Some c)) ∧
           counts s !! c = Some (Live 1) ∧
           values s !! p = Some (Live v) ∧
           values s' = <[p := Freed]> (values s).
Proof.
  intros H. cpp_unfold.
  destruct (handles s !! this) as [[hp hr]|] eqn:Hh; [|done].
  destruct hr as [c|]; repeat (simplify_map_eq; simpl in * ); [|by left].
  destruct (counts s !! c) as [[z|]|] eqn:Hc;
    repeat (simplify_map_eq; simpl in * ).
  case_decide; repeat (simplify_map_eq; simpl in * ).
  case_decide as Hz; repeat (simplify_map_eq; simpl in * ); [|by left].
  destruct hp as [p|]; repeat (simplify_map_eq; simpl in * ); [|by left].
  destruct (values s !! p) as [[v|]|] eqn:Hv;
    repeat (simplify_map_eq; simpl in * ).
  right. exists p, c, v. repeat split; try done.
  rewrite Hc. do 2 f_equal. lia.
Qed.

Lemma ctor_default_shape this s s' :
  PC.ctor_default this s = Some (tt, s') →
  handles s !! this = None ∧
  ∃ c, handles s' = <[this := Handle None (Some c)]> (handles s) ∧
       values s' = values s.
Proof.
  intros H. cpp_unfold.
  destruct (handles s !! this) eqn:Hh; simplify_eq. eauto.
Qed.

Lemma ctor_raw_shape this raw raw' s s' :
  PC.ctor_raw this raw s = Some (raw', s') ∨
  PC.ctor_raw_rvalue this raw s = Some (raw', s') →
  handles s !! this = None ∧
  ∃ c, handles s' = <[this := Handle raw (Some c)]> (handles s) ∧
       values s' = values s.
Proof.
  intros [H | H]; cpp_unfold;
    destruct (handles s !! this) eqn:Hh; simplify_eq; eauto.
Qed.

Lemma ctor_copy_shape this rhs s s' :
  PC.ctor_copy this rhs s = Some (tt, s') →
  ∃ h, handles s !! rhs = Some h ∧
       handles s' = <[this := h]> (handles s) ∧ values s' = values s.
Proof.
  intros H. cpp_unfold.
  destruct (handles s !! rhs) as [[p r]|] eqn:Hrhs; [|done].
  destruct (handles s !! this) eqn:Hthis;
    repeat (simplify_map_eq; simpl in * ).
  exists (Handle p r). split; [done|].
  cpp_cases; simpl; done.
Qed.

Lemma ctor_move_shape this rhs s s' :
  PC.ctor_move this rhs s = Some (tt, s') →
  ∃ h, handles s !! rhs = Some h ∧ handles s !! this = None ∧
       handles s' = <[rhs := Handle None None]> (<[this := h]> (handles s)) ∧
       counts s' = counts s ∧ values s' = values s ∧ cout s' = cout s.
Proof.
  intros H. cpp_unfold.
  destruct (handles s !! rhs) as [[p r]|] eqn:Hrhs; [|done].
  destruct (handles s !! this) eqn:Hthis;
    repeat (simplify_map_eq; simpl in * ).
  assert (this ≠ rhs) by congruence.
  repeat (simplify_map_eq; simpl in * ).
  exists (Handle p r). rewrite insert_insert_eq. done.
Qed.

Lemma assign_copy_shape this rhs r s s' :
  PC.assign_copy this rhs s = Some (r, s') →
  (this = rhs ∧ s' = s) ∨
  ∃ s1 h, this ≠ rhs ∧ PC.release this s = Some (tt, s1) ∧
          handles s1 !! rhs = Some h ∧
          handles s' = <[this := h]> (handles s1) ∧ values s' = values s1.
Proof.
  unfold PC.assign_copy. intros (u & s2 & H & Hret)%bind_Some.
  cbv [ret] in Hret. injection Hret as <- <-.
  case_decide as Hne;
    [|left; cbv [ret] in H; split; [by destruct (decide (this = rhs)) | congruence]].
  right. apply bind_Some in H as ([] & s1 & Hrel & H).
  destruct (release_astep _ _ _ Hrel) as [_ Hreleased].
  exists s1. unfold released in Hreleased. cpp_unfold.
  destruct (handles s1 !! rhs) as [[p q]|] eqn:Hrhs;
    repeat (simplify_map_eq; simpl in * ).
  exists (Handle p q). repeat split; try done;
    cpp_cases; simpl; by rewrite ?insert_insert_eq.
Qed.

Lemma assign_move_shape this rhs r s s' :
  PC.assign_move this rhs s = Some (r, s') →
  (this = rhs ∧ handles s' = handles s ∧ counts s' = counts s ∧
   values s' = values s) ∨
  ∃ s0 s1 h, this ≠ rhs ∧
             handles s0 = handles s ∧ counts s0 = counts s ∧
             values s0 = values s ∧
             PC.release this s0 = Some (tt, s1) ∧
             handles s1 !! rhs = Some h ∧
             handles s' =
               <[rhs := Handle None None]> (<[this := h]> (handles s1)) ∧
             counts s' = counts s1 ∧ values s' = values s1.
Proof.
  unfold PC.assign_move. intros ([] & s0 & Hprint & H)%bind_Some.
  cbv [print with_cout] in Hprint. injection Hprint as <-.
  apply bind_Some in H as (u & s2 & H & Hret).
  cbv [ret] in Hret. injection Hret as <- <-.
  case_decide as Hne.
  - right. apply bind_Some in H as ([] & s1 & Hrel & H).
    destruct (release_astep _ _ _ Hrel) as [_ Hreleased].
    eexists (State (values s) (counts s) (handles s) _), s1.
    unfold released in Hreleased.
    cbv [bind get_ptr get_ref set_ptr set_ref with_handles ret] in H.
    simpl in H.
    destruct (handles s1 !! rhs) as [[p q]|] eqn:Hrhs;
      repeat (simplify_map_eq; simpl in * ).
    exists (Handle p q). repeat split; try done.
    simpl. by rewrite ?insert_insert_eq.
  - left. cbv [ret] in H. injection H as <- <-.
    split; [by destruct (decide (this = rhs))|by repeat split].
Qed.

Lemma main_assign_move_shape this rhs r s s' :
  Main.assign_move this rhs s = Some (r, s') →
  (this = rhs ∧ s' = s) ∨
  ∃ s1 h, this ≠ rhs ∧ PC.release this s = Some (tt, s1) ∧
          handles s1 !! rhs = Some h ∧
          handles s' =
            <[rhs := Handle None (ref_ h)]> (<[this := h]> (handles s1)) ∧
          counts s' = counts s1 ∧ values s' = values s1.
Proof.
  unfold Main.assign_move. intros (u & s2 & H & Hret)%bind_Some.
  cbv [ret] in Hret. injection Hret as <- <-.
  case_decide as Hne;
    [|left; cbv [ret] in H; split; [by destruct (decide (this = rhs)) | congruence]].
  right. apply bind_Some in H as ([] & s1 & Hrel & H).
  rewrite release_agree in Hrel.
  destruct (release_astep _ _ _ Hrel) as [_ Hreleased].
  exists s1. unfold released in Hreleased. cpp_unfold.
  destruct (handles s1 !! rhs) as [[p q]|] eqn:Hrhs;
    repeat (simplify_map_eq; simpl in * ).
  exists (Handle p q). repeat split; try done.
  simpl. by rewrite ?insert_insert_eq.
Qed.

Lemma clone_shape this b s s' :
  PC.clone this s = Some (b, s') →
  (b = false ∧ s' = s) ∨
  ∃ p c z v p' c',
    b = true ∧
    handles s !! this = Some (Handle (Some p) (Some c)) ∧
    counts s !! c = Some (Live z) ∧ z ≠ 1 ∧
    values s !! p = Some (Live v) ∧ values s !! p' = None ∧
    counts s !! c' = None ∧
    handles s' = <[this := Handle (Some p') (Some c')]> (handles s) ∧
    counts s' = <[c' := Live 1]> (<[c := Live (z - 1)]> (counts s)) ∧
    values s' = <[p' := Live v]> (values s).
Proof.
  intros H. cpp_unfold.
  destruct (handles s !! this) as [[p r]|] eqn:Hthis; [|done].
  destruct p as [p|]; repeat (simplify_map_eq; simpl in * ); [|by left].
  destruct r as [c|]; [|done].
  destruct (counts s !! c) as [[z|]|] eqn:Hc;
    repeat (simplify_map_eq; simpl in * ).
  case_bool_decide as Hz; repeat (simplify_map_eq; simpl in * ); [by left|].
  destruct (values s !! p) as [[v|]|] eqn:Hv;
    repeat (simplify_map_eq; simpl in * ).
  case_decide; repeat (simplify_map_eq; simpl in * ).
  set (c' := fresh (dom (<[c:=Live (z - 1)]> (counts s)))).
  assert (<[c:=Live (z - 1)]> (counts s) !! c' = None) as Hc'.
  { apply not_elem_of_dom, is_fresh. }
  apply lookup_insert_None in Hc' as [Hc' Hcc].
  right. exists p, c, z, v, (fresh (dom (values s))), c'.
  repeat split; try done.
  - apply fresh_value.
  - simpl. by rewrite insert_insert_eq.
Qed.

Lemma dtor_shape this s s' :
  PC.dtor this s = Some (tt, s') →
  ∃ s1, PC.release this s = Some (tt, s1) ∧
        handles s' = delete this (handles s1) ∧
        counts s' = counts s1 ∧ values s' = values s1 ∧ cout s' = cout s1.
Proof.
  unfold PC.dtor. intros ([] & s1 & Hrel & H)%bind_Some.
  exists s1. split; [done|].
  cbv [destruct_object with_handles] in H.
  destruct (handles s1 !! this) eqn:Hthis; by simplify_eq.
Qed.
End Shapes.


(** ** Memory safety under disciplined callers *)
Section Safety.
Context {T : Type}.
Implicit Types (s : state T) (this rhs k : hid) (c p : loc).

Lemma alias_count_two c k1 k2 h1 h2 (hs : gmap hid handle) :
  k1 ≠ k2 → hs !! k1 = Some h1 → hs !! k2 = Some h2 →
  ref_ h1 = Some c → ref_ h2 = Some c → (2 ≤ alias_count c hs)%nat.
Proof.
  intros Hne H1 H2 Hr1 Hr2.
  pose proof (alias_count_delete c k1 hs) as Hd.
  rewrite H1, weight_Some_eq in Hd by done.
  assert (1 ≤ alias_count c (delete k1 hs))%nat; [|lia].
  apply (alias_count_lookup c k2 h2); [|done]. by rewrite lookup_delete_ne.
Qed.

Lemma exact_inv_rtc s s' : rtc astep s s' → exact_inv s → exact_inv s'.
Proof. induction 1; eauto using exact_inv_astep. Qed.

(** The two safety properties only look at handles and values. *)
Lemma safety_from s s' :
  (∀ k h, handles s' !! k = Some h → ptr_ h ≠ None →
          ∃ k0, handles s !! k0 = Some h) →
  (∀ p v, values s !! p = Some (Live v) → values s' !! p = Some (Live v)) →
  values_live s ∧ owners_agree s → values_live s' ∧ owners_agree s'.
Proof.
  intros Hfrom Hval [Hlive Hag]. split.
  - intros k h p Hk Hp.
    destruct (Hfrom k h Hk) as [k0 Hk0]; [congruence|].
    destruct (Hlive k0 h p Hk0 Hp) as [v Hv]. eauto.
  - intros k1 h1 k2 h2 p Hk1 Hk2 Hp1 Hp2.
    destruct (Hfrom k1 h1 Hk1) as [k1' Hk1']; [congruence|].
    destruct (Hfrom k2 h2 Hk2) as [k2' Hk2']; [congruence|].
    eauto.
Qed.

Lemma safety_adopt this raw c s s' :
  handles s !! this = None → adoptable s raw →
  handles s' = <[this := Handle raw (Some c)]> (handles s) →
  values s' = values s →
  values_live s ∧ owners_agree s → values_live s' ∧ owners_agree s'.
Proof.
  intros Hthis Had Hh Hv [Hlive Hag]. unfold adoptable in Had. split.
  - intros k h p Hk Hp. rewrite Hh in Hk. rewrite Hv.
    destruct (decide (this = k)) as [->|]; simplify_map_eq; [|eauto].
    destruct (values s !! p) as [[v|]|]; by eauto.
  - intros k1 h1 k2 h2 p Hk1 Hk2 Hp1 Hp2. rewrite Hh in Hk1, Hk2.
    destruct (decide (k1 = this)) as [->|], (decide (k2 = this)) as [->|];
      simplify_map_eq; eauto.
    + destruct (values s !! p) as [[v|]|]; try done.
      by destruct (Had k2 h2 Hk2).
    + destruct (values s !! p) as [[v|]|]; try done.
      by destruct (Had k1 h1 Hk1).
Qed.

Lemma safety_release this s s1 :
  PC.release this s = Some (tt, s1) → safe_inv s →
  values_live s1 ∧ owners_agree s1.
Proof.
  intros Hrel ([_ Hex] & Hlive & Hag).
  destruct (release_inv _ _ _ Hrel) as (h & Hthis & Hh & _).
  assert (∀ k hk, handles s1 !! k = Some hk → ptr_ hk ≠ None →
                  k ≠ this ∧ handles s !! k = Some hk) as Hfrom.
  { intros k hk Hk Hp. rewrite Hh in Hk.
    destruct (decide (this = k)) as [->|]; by simplify_map_eq. }
  split.
  - intros k hk q Hk Hq.
    destruct (Hfrom k hk Hk) as [Hne Hk0]; [congruence|].
    destruct (Hlive k hk q Hk0 Hq) as [v Hv].
    destruct (release_values _ _ _ Hrel)
      as [-> | (p & c & v' & Hthis' & Hc & _ & ->)]; [eauto|].
    destruct (decide (p = q)) as [->|]; [|rewrite lookup_insert_ne; eauto].
    exfalso.
    pose proof (Hag k hk this _ q Hk0 Hthis' Hq eq_refl) as Hr. simpl in Hr.
    destruct (Hex this _ q Hthis' eq_refl) as (c1 & Hr1 & Hc1 & _).
    simpl in Hr1. injection Hr1 as <-. rewrite Hc in Hc1.
    pose proof (alias_count_two c k this hk _ (handles s) Hne Hk0 Hthis'
                  Hr eq_refl).
    injection Hc1 as Hc1. lia.
  - intros k1 h1 k2 h2 q Hk1 Hk2 Hp1 Hp2.
    destruct (Hfrom k1 h1 Hk1) as [_ Hk1']; [congruence|].
    destruct (Hfrom k2 h2 Hk2) as [_ Hk2']; [congruence|].
    eauto.
Qed.

Lemma safety_clone this p' c' v s s' :
  values s !! p' = None →
  handles s' = <[this := Handle (Some p') (Some c')]> (handles s) →
  values s' = <[p' := Live v]> (values s) →
  values_live s ∧ owners_agree s → values_live s' ∧ owners_agree s'.
Proof.
  intros Hp' Hh Hv [Hlive Hag].
  assert (∀ k h, handles s !! k = Some h → ptr_ h ≠ Some p') as Hun.
  { intros k h Hk Hp. destruct (Hlive k h p' Hk Hp). congruence. }
  split.
  - intros k h q Hk Hq. rewrite Hh in Hk. rewrite Hv.
    destruct (decide (this = k)) as [->|]; simplify_map_eq; [eauto|].
    rewrite lookup_insert_ne by (intros ->; by destruct (Hun k h)). eauto.
  - intros k1 h1 k2 h2 q Hk1 Hk2 Hp1 Hp2. rewrite Hh in Hk1, Hk2.
    destruct (decide (k1 = this)) as [->|], (decide (k2 = this)) as [->|];
      simplify_map_eq; eauto.
    + by destruct (Hun k2 h2).
    + by destruct (Hun k1 h1).
Qed.

Lemma safe_inv_ext s s' :
  handles s' = handles s → counts s' = counts s → values s' = values s →
  safe_inv s → safe_inv s'.
Proof.
  intros Hh Hc Hv. unfold safe_inv, exact_inv, refs_allocated, count_exact,
    values_live, owners_agree. by rewrite Hh, Hc, Hv.
Qed.

(** One disciplined action of a program over the [PC] class keeps the
    handles safe. *)
Lemma safe_inv_exec o r s s' :
  safe_inv s → disciplined s o → exec PC_class o s = Some (r, s') →
  safe_inv s'.
Proof.
  intros Hsafe Hdis Hexec.
  split; [eapply exact_inv_rtc; [by eapply exec_astep | apply Hsafe]|].
  destruct Hsafe as (Hex & Hsafe).
  destruct o; simpl in Hexec, Hdis;
    repeat match goal with
      | H : bind _ _ _ = Some _ |- _ =>
          apply bind_Some in H as (? & ? & ? & H)
      | H : alive _ _ = Some (?u, _) |- _ =>
          destruct u; apply alive_inv in H as ->
      | H : ret _ _ = Some _ |- _ => cbv [ret] in H; injection H as <- <-
      end.
  - (* new T{v} *)
    cbv [new_T with_values] in *. simplify_eq. simpl.
    eapply safety_from; [| |exact Hsafe]; simpl; [eauto|].
    intros p v' Hp. rewrite lookup_insert_ne; [done|].
    intros <-. by rewrite fresh_value in Hp.
  - destruct x.
    match goal with H : PC.ctor_default _ _ = _ |- _ =>
      apply ctor_default_shape in H as (Hthis & c & Hh & Hv) end.
    by eapply (safety_adopt this None c).
  - match goal with H : PC.ctor_raw _ _ _ = _ |- _ =>
      destruct (ctor_raw_shape _ _ _ _ _ (or_introl H))
        as (Hthis & c & Hh & Hv) end.
    by eapply (safety_adopt this raw_ptr c).
  - match goal with H : PC.ctor_raw_rvalue _ _ _ = _ |- _ =>
      destruct (ctor_raw_shape _ _ _ _ _ (or_intror H))
        as (Hthis & c & Hh & Hv) end.
    by eapply (safety_adopt this raw_ptr c).
  - destruct x1.
    match goal with H : PC.ctor_copy _ _ _ = _ |- _ =>
      apply ctor_copy_shape in H as (h & Hrhs & Hh & Hv) end.
    eapply safety_from; [| |exact Hsafe].
    + intros k hk Hk _. rewrite Hh in Hk.
      destruct (decide (this = k)) as [->|]; simplify_map_eq; eauto.
    + by rewrite Hv.
  - destruct x1.
    match goal with H : PC.ctor_move _ _ _ = _ |- _ =>
      apply ctor_move_shape in H as (h & Hrhs & _ & Hh & _ & Hv & _) end.
    eapply safety_from; [| |exact Hsafe].
    + intros k hk Hk Hp. rewrite Hh in Hk.
      destruct (decide (rhs = k)) as [->|]; simplify_map_eq.
      destruct (decide (this = k)) as [->|]; simplify_map_eq; eauto.
    + by rewrite Hv.
  - match goal with H : PC.assign_copy _ _ _ = _ |- _ =>
      apply assign_copy_shape in H
        as [[_ ->] | (s1 & h & _ & Hrel & Hrhs & Hh & Hv)] end; [done|].
    eapply safety_from; [| |eapply safety_release; [exact Hrel|by split]].
    + intros k hk Hk _. rewrite Hh in Hk.
      destruct (decide (this = k)) as [->|]; simplify_map_eq; eauto.
    + by rewrite Hv.
  - match goal with H : PC.assign_move _ _ _ = _ |- _ =>
      apply assign_move_shape in H
        as [(_ & Hh & Hc & Hv) |
            (s0 & s1 & h & _ & Hh0 & Hc0 & Hv0 & Hrel & Hrhs & Hh & _ & Hv)]
      end.
    + eapply safe_inv_ext; [exact Hh | exact Hc | exact Hv | by split].
    + eapply safety_from;
        [| |eapply safety_release;
             [exact Hrel | by eapply (safe_inv_ext s s0)]].
      * intros k hk Hk Hp. rewrite Hh in Hk.
        destruct (decide (rhs = k)) as [->|]; simplify_map_eq.
        destruct (decide (this = k)) as [->|]; simplify_map_eq; eauto.
      * by rewrite Hv.
  - match goal with H : PC.clone _ _ = _ |- _ =>
      apply clone_shape in H
        as [[_ ->] |
            (p & c & z & v & p' & c' & _ & _ & _ & _ & _ & Hp' & _ & Hh & _
             & Hv)] end; [done|].
    by eapply (safety_clone this p' c' v).
  - match goal with H : PC.ref_count _ _ = _ |- _ =>
      apply ref_count_inv in H as [-> _] end. done.
  - match goal with H : PC.deref _ _ = _ |- _ => apply deref_inv in H as -> end.
    done.
  - match goal with H : PC.arrow _ _ = _ |- _ => apply arrow_inv in H as -> end.
    done.
  - destruct x1.
    match goal with H : PC.dtor _ _ = _ |- _ =>
      apply dtor_shape in H as (s1 & Hrel & Hh & _ & Hv & _) end.
    eapply safety_from; [| |eapply safety_release; [exact Hrel|by split]].
    + intros k hk Hk _. rewrite Hh in Hk.
      apply lookup_delete_Some in Hk as [_ Hk]. eauto.
    + by rewrite Hv.
Qed.

Lemma init_safe_inv : safe_inv (@init T).
Proof.
  split; [apply init_exact_inv|].
  split; intros k h; intros; simplify_map_eq.
Qed.

Lemma reachable_disciplined_safe_inv s :
  reachable_disciplined PC_class s → safe_inv s.
Proof. induction 1; eauto using init_safe_inv, safe_inv_exec. Qed.
End Safety.


(** ** Lifetimes: what construction, assignment and destruction compose to *)
(** Runs a member function forward on a state described by hypotheses. *)
Ltac cpp_go :=
  cpp_unfold;
  repeat first
    [ progress simplify_map_eq
    | rewrite decide_True by (first [done | lia])
    | rewrite decide_False by (first [done | lia])
    | rewrite bool_decide_true by lia
    | rewrite bool_decide_false by lia
    | progress simpl ].

Section Lifetime.
Context {T : Type}.
Implicit Types (s : state T) (this rhs k : hid) (c p : loc) (f : file).

(** X1.  [release()] is idempotent: once it has returned, calling it
    again on the same handle is defined and changes nothing, since both
    members are null by then. *)
Theorem release_twice this s s1 :
  PC.release this s = Some (tt, s1) →
  PC.release this s1 = Some (tt, s1) ∧ Main.release this s1 = Some (tt, s1).
Proof.
  intros Hrel. destruct (release_astep _ _ _ Hrel) as [_ Hreleased].
  unfold released in Hreleased.
  assert (PC.release this s1 = Some (tt, s1)) as H; [|split; exact H].
  clear Hrel. cpp_go. rewrite insert_insert_eq, insert_id by done.
  by rewrite state_eta.
Qed.

(** X2.  The destructor of the last owner (the handle holds a live value
    and its count reads 1) deletes the value and the count and ends the
    handle; nothing else changes. *)
Theorem dtor_last_owner_frees f this p c v s :
  handles s !! this = Some (Handle (Some p) (Some c)) →
  counts s !! c = Some (Live 1) →
  values s !! p = Some (Live v) →
  dtor (class_of f) this s =
    Some (tt, State (<[p := Freed]> (values s)) (<[c := Freed]> (counts s))
                (delete this (handles s)) (cout s)).
Proof.
  intros Hthis Hc Hv. unfold INT_MIN.
  destruct f; simpl; cpp_go;
    by rewrite !insert_insert_eq, delete_insert_eq.
Qed.

(** X3.  The destructor of a handle whose count reads [z], with [z]
    other than 1, takes the count to [z - 1] and ends the handle; no value
    and no other count changes.  (With [z = 0], the count of a
    default-constructed handle, this leaves a count of -1 behind.) *)
Theorem dtor_shared_decrements f this hp c z s :
  handles s !! this = Some (Handle hp (Some c)) →
  counts s !! c = Some (Live z) → z ≠ 1 → INT_MIN < z →
  dtor (class_of f) this s =
    Some (tt, State (values s) (<[c := Live (z - 1)]> (counts s))
                (delete this (handles s)) (cout s)).
Proof.
  intros Hthis Hc Hz Hmin.
  destruct f; simpl; cpp_go; by rewrite !insert_insert_eq, delete_insert_eq.
Qed.

(** X4.  Copy-constructing from a handle that holds a value and then
    destroying the copy gives back exactly the state before the copy. *)
Theorem copy_then_destroy_roundtrip f this rhs p c z s :
  handles s !! this = None →
  handles s !! rhs = Some (Handle (Some p) (Some c)) →
  counts s !! c = Some (Live z) → z ≠ 0 → INT_MIN ≤ z → z < INT_MAX →
  run (class_of f) [CtorCopy this rhs; Dtor this] s =
    Some ([RVoid; RVoid], s).
Proof.
  intros Hthis Hrhs Hc Hz Hmin Hmax.
  assert (this ≠ rhs) by congruence.
  destruct f; simpl; cpp_go;
    rewrite !insert_insert_eq, delete_insert_eq, delete_id by done;
    replace (z + 1 - 1) with z by lia;
    rewrite insert_id by done; by rewrite state_eta.
Qed.

(** X5.  Copy-constructing from an empty handle whose count reads [z],
    with [z] other than 1, and then destroying the copy does not give the
    state back: the copy did not count itself in, its destructor counts
    itself out, and the source reads [z - 1] afterwards. *)
Theorem copy_of_empty_then_destroy f this rhs c z s :
  handles s !! this = None →
  handles s !! rhs = Some (Handle None (Some c)) →
  counts s !! c = Some (Live z) → z ≠ 1 → INT_MIN < z →
  run (class_of f) [CtorCopy this rhs; Dtor this; RefCount rhs] s =
    Some ([RVoid; RVoid; RInt (z - 1)],
          State (values s) (<[c := Live (z - 1)]> (counts s)) (handles s)
                (cout s)).
Proof.
  intros Hthis Hrhs Hc Hz Hmin.
  assert (this ≠ rhs) by congruence.
  destruct f; simpl; cpp_go;
    by rewrite !insert_insert_eq, delete_insert_eq, delete_id.
Qed.

(** X6.  Move construction followed by the destructor of the source only
    moves the handle from one address to the other: no count and no value
    changes, so destroying a moved-from handle releases nothing. *)
Theorem move_then_destroy_source f this rhs h s :
  handles s !! this = None → handles s !! rhs = Some h →
  run (class_of f) [CtorMove this rhs; Dtor rhs] s =
    Some ([RVoid; RVoid],
          State (values s) (counts s)
                (<[this := h]> (delete rhs (handles s))) (cout s)).
Proof.
  intros Hthis Hrhs. destruct h as [hp hr].
  assert (this ≠ rhs) by congruence.
  destruct f; simpl; cpp_go;
    by rewrite !insert_insert_eq, delete_insert_eq, delete_insert_ne.
Qed.

(** X7.  Whenever [clone()] returns, a second [clone()] on the same
    handle returns false and changes nothing. *)
Theorem clone_twice f this b s s' :
  clone (class_of f) this s = Some (b, s') →
  clone (class_of f) this s' = Some (false, s').
Proof.
  assert (clone (class_of f) = PC.clone) as -> by (by destruct f).
  intros Hclone.
  destruct (clone_shape _ _ _ _ Hclone)
    as [[-> ->] | (p & c & z & v & p' & c' & _ & _ & _ & _ & _ & _ & _
                   & Hh & Hcs & _)]; [done|].
  clear Hclone. cpp_unfold.
  repeat first [ rewrite Hh | rewrite Hcs | rewrite lookup_insert_eq
               | progress simpl ].
  done.
Qed.

(** X8.  Copy assignment onto the last owner of another value deletes
    that value and its count before the destination joins the source:
    nothing is left behind by re-pointing. *)
Theorem assign_copy_over_last_owner f this rhs p0 c0 v0 p c z s :
  this ≠ rhs → c ≠ c0 →
  handles s !! this = Some (Handle (Some p0) (Some c0)) →
  counts s !! c0 = Some (Live 1) → values s !! p0 = Some (Live v0) →
  handles s !! rhs = Some (Handle (Some p) (Some c)) →
  counts s !! c = Some (Live z) → z < INT_MAX →
  assign_copy (class_of f) this rhs s =
    Some (this,
          State (<[p0 := Freed]> (values s))
                (<[c := Live (z + 1)]> (<[c0 := Freed]> (counts s)))
                (<[this := Handle (Some p) (Some c)]> (handles s))
                (cout s)).
Proof.
  intros Hne Hcc Hthis Hc0 Hv0 Hrhs Hc Hz. unfold INT_MIN.
  destruct f; simpl; cpp_go; by rewrite !insert_insert_eq.
Qed.

(** X9.  From any state, a program that never move-assigns runs alike
    with the two definitions of the class: same results, same final state,
    same undefined behaviour. *)
Theorem programs_without_move_assignment_agree (os : list (op T)) s :
  (∀ this rhs, AssignMove this rhs ∉ os) →
  run Main_class os s = run PC_class os s.
Proof.
  revert s. induction os as [|o os IH]; intros s Hno; [done|].
  simpl. unfold bind.
  rewrite exec_agree
    by (intros this rhs ->; eapply Hno; apply list_elem_of_here).
  destruct (exec PC_class o s) as [[r s1]|]; [|done].
  rewrite IH; [done|]. intros this rhs Hin.
  eapply Hno. apply list_elem_of_further, Hin.
Qed.
End Lifetime.

Section Adoption.
Context {T : Type}.
Implicit Types (s : state T) (this rhs k : hid) (c p : loc) (f : file).

(** X10.  Handing the same live raw pointer to two handles (the
    constructor that takes an lvalue leaves the caller's pointer as it was)
    gives each its own count of 1: the first destructor deletes the value,
    the second handle is left holding a deleted value, and its destructor
    deletes it again, which is undefined. *)
Theorem double_adoption_undefined f this1 this2 p v s :
  this1 ≠ this2 →
  handles s !! this1 = None → handles s !! this2 = None →
  values s !! p = Some (Live v) →
  (∃ s3, run (class_of f)
           [CtorRaw this1 (Some p); CtorRaw this2 (Some p); Dtor this1] s =
           Some ([RRaw (Some p); RRaw (Some p); RVoid], s3) ∧
         (∃ c, handles s3 !! this2 = Some (Handle (Some p) (Some c)) ∧
               counts s3 !! c = Some (Live 1)) ∧
         values s3 !! p = Some Freed) ∧
  run (class_of f)
    [CtorRaw this1 (Some p); CtorRaw this2 (Some p); Dtor this1; Dtor this2] s
    = None.
Proof.
  intros Hne H1 H2 Hv. unfold INT_MIN.
  set (c1 := fresh (dom (counts s))).
  set (c2 := fresh (dom (<[c1 := Live 1]> (counts s)))).
  assert (counts s !! c1 = None) as Hc1 by apply fresh_count.
  assert (<[c1 := Live 1]> (counts s) !! c2 = None) as Hc2.
  { apply not_elem_of_dom, is_fresh. }
  apply lookup_insert_None in Hc2 as [Hc2 Hcc].
  split.
  - eexists. split; [|split].
    + destruct f; simpl; cpp_unfold; fold c1; fold c2;
        repeat first
          [ progress simplify_map_eq
          | rewrite decide_True by (first [done | lia])
          | progress simpl ]; reflexivity.
    + exists c2. simpl. by simplify_map_eq.
    + simpl. by simplify_map_eq.
  - destruct f; simpl; cpp_unfold; fold c1; fold c2;
      repeat first
        [ progress simplify_map_eq
        | rewrite decide_True by (first [done | lia])
        | progress simpl ]; reflexivity.
Qed.
End Adoption.

Section Owners.
Context {T : Type}.
Implicit Types (s : state T) (this rhs k : hid) (c p : loc) (f : file).

(** X11.  In every state a disciplined program over the [PC] class can
    reach, a handle that holds a value holds a live one: [operator*]
    returns its address and reading through it is defined. *)
Theorem owner_value_is_live s k h p :
  reachable_disciplined PC_class s →
  handles s !! k = Some h → ptr_ h = Some p →
  ∃ v, values s !! p = Some (Live v) ∧
       deref PC_class k s = Some (Returned p, s) ∧
       load_T (Some p) s = Some (v, s).
Proof.
  intros Hreach Hk Hp.
  destruct (reachable_disciplined_safe_inv s Hreach) as (_ & Hlive & _).
  destruct (Hlive k h p Hk Hp) as [v Hv]. exists v.
  destruct h as [hp hr]. simpl in Hp. subst hp.
  repeat split; [done | |]; simpl; cpp_go; done.
Qed.

(** X12.  In every such state the share count of a handle that holds a
    value is the number of live handles that hold the same value. *)
Theorem count_equals_holders s k h p :
  reachable_disciplined PC_class s →
  handles s !! k = Some h → ptr_ h = Some p →
  ref_count PC_class k s = Some (Z.of_nat (size (holders p (handles s))), s).
Proof.
  intros Hreach Hk Hp.
  destruct (reachable_disciplined_safe_inv s Hreach) as ([_ Hex] & _ & Hag).
  destruct (Hex k h p Hk Hp) as (c & Hr & Hc & Hsh).
  assert (holders p (handles s) = sharers c (handles s)) as ->.
  { unfold holders, sharers. apply map_filter_ext. intros k' h' Hk'. simpl.
    split.
    - intros Hp'. rewrite <-Hr. by apply (Hag k' h' k h p).
    - intros Hr'. by apply (Hsh k' h'). }
  eapply ref_count_lookup; eauto. by left.
Qed.

(** X13.  In every such state the destructor and [clone()] of a handle
    that holds a value have defined behaviour. *)
Theorem owner_calls_defined s k h p :
  reachable_disciplined PC_class s →
  handles s !! k = Some h → ptr_ h = Some p →
  is_Some (dtor PC_class k s) ∧ is_Some (clone PC_class k s).
Proof.
  intros Hreach Hk Hp.
  destruct (reachable_disciplined_safe_inv s Hreach)
    as ([_ Hex] & Hlive & _).
  destruct (Hex k h p Hk Hp) as (c & Hr & Hc & _).
  destruct (Hlive k h p Hk Hp) as [v Hv].
  pose proof (alias_count_lookup c k h (handles s) Hk Hr) as Hone.
  destruct h as [hp hr]. simpl in Hp, Hr. subst hp hr.
  set (z := Z.of_nat (alias_count c (handles s))) in *.
  assert (1 ≤ z) as Hz by lia. clearbody z.
  assert (INT_MIN < z) by (unfold INT_MIN; lia).
  destruct (decide (z = 1)) as [-> | Hz1]; split; simpl; cpp_go; eauto.
Qed.
End Owners.

Section RawAdoption.
Context {T : Type}.
Implicit Types (s : state T) (this rhs k : hid) (c p : loc) (f : file).

(** X15.  On a fresh object both raw-pointer constructors build the same
    handle, holding the given pointer with a new count of 1; the one that
    takes an lvalue leaves the caller's pointer as it was, the one that
    takes an rvalue sets it to null. *)
Theorem raw_ctor_adopts f this raw s :
  handles s !! this = None →
  ∃ c s',
    counts s !! c = None ∧
    s' = State (values s) (<[c := Live 1]> (counts s))
               (<[this := Handle raw (Some c)]> (handles s)) (cout s) ∧
    ctor_raw (class_of f) this raw s = Some (raw, s') ∧
    ctor_raw_rvalue (class_of f) this raw s = Some (None, s') ∧
    ref_count (class_of f) this s' = Some (1, s') ∧
    arrow (class_of f) this s' =
      Some (match raw with
            | Some p => Returned p
            | None => Thrown null_ptr_exception
            end, s').
Proof.
  intros Hthis. exists (fresh (dom (counts s))). eexists.
  split; [apply fresh_count|]. split; [reflexivity|].
  destruct f, raw; simpl; cpp_go; done.
Qed.
End RawAdoption.

Section ExtraRuns.
Local Open Scope positive_scope.

Lemma two_owners_disciplined :
  reachable_disciplined (@PC_class Z)
    (state_after PC_class [New 42%Z; CtorRaw 1 (Some 1); CtorCopy 2 1]).
Proof.
  eapply (disciplined_step _ (state_after PC_class [New 42%Z; CtorRaw 1 (Some 1)])
            (CtorCopy 2 1)); [|exact I|vm_compute; reflexivity].
  eapply (disciplined_step _ (state_after PC_class [New 42%Z])
            (CtorRaw 1 (Some 1))); [| |vm_compute; reflexivity].
  - eapply (disciplined_step _ init (New 42%Z));
      [constructor | exact I | vm_compute; reflexivity].
  - vm_compute. intros k h Hk. destruct k; discriminate.
Qed.
End ExtraRuns.

(** ** The same properties on concrete runs *)
Section ExtraWitnesses.
Local Open Scope positive_scope.

Lemma release_twice_witness :
  ∃ s1 : state Z,
    PC.release 1 (state_after PC_class [New 42%Z; CtorRaw 1 (Some 1)]) =
      Some (tt, s1) ∧
    PC.release 1 s1 = Some (tt, s1).
Proof.
  eexists. split; [vm_compute; reflexivity|].
  apply (release_twice 1 (state_after PC_class [New 42%Z; CtorRaw 1 (Some 1)])).
  vm_compute. reflexivity.
Defined.

Lemma dtor_last_owner_frees_witness :
  let s := state_after (@PC_class Z) [New 42%Z; CtorRaw 1 (Some 1)] in
  ∃ s', dtor PC_class 1 s = Some (tt, s') ∧
        values s' !! 1 = Some Freed ∧ counts s' !! 1 = Some Freed.
Proof.
  intros s. eexists. split.
  - apply (dtor_last_owner_frees PC_cpp 1 1 1 42%Z s);
      vm_compute; reflexivity.
  - split; vm_compute; reflexivity.
Defined.

Lemma dtor_shared_decrements_witness :
  let s := state_after (@PC_class Z)
             [New 42%Z; CtorRaw 1 (Some 1); CtorCopy 2 1] in
  ∃ s', dtor PC_class 2 s = Some (tt, s') ∧
        ref_count PC_class 1 s' = Some (1%Z, s').
Proof.
  intros s. eexists. split.
  - apply (dtor_shared_decrements PC_cpp 2 (Some 1) 1 2%Z s);
      [vm_compute; reflexivity | vm_compute; reflexivity | lia
      | vm_compute; reflexivity].
  - vm_compute. reflexivity.
Defined.

Lemma copy_then_destroy_roundtrip_witness :
  let s := state_after (@PC_class Z) [New 42%Z; CtorRaw 1 (Some 1)] in
  run PC_class [CtorCopy 2 1; Dtor 2] s = Some ([RVoid; RVoid], s).
Proof.
  intros s.
  apply (copy_then_destroy_roundtrip PC_cpp 2 1 1 1 1%Z s);
    [vm_compute; reflexivity | vm_compute; reflexivity
    | vm_compute; reflexivity | lia | vm_compute; discriminate
    | vm_compute; reflexivity].
Defined.

Lemma copy_of_empty_then_destroy_witness :
  let s := state_after (@PC_class Z) [CtorDefault 1] in
  fst <$> run PC_class [CtorCopy 2 1; Dtor 2; RefCount 1] s =
    Some [RVoid; RVoid; RInt (-1)%Z].
Proof.
  intros s.
  assert (H := copy_of_empty_then_destroy PC_cpp 2 1 1 0%Z s).
  change (class_of PC_cpp) with (@PC_class Z) in H.
  rewrite H;
    [reflexivity | vm_compute; reflexivity | vm_compute; reflexivity
    | vm_compute; reflexivity | lia | vm_compute; reflexivity].
Defined.

Lemma move_then_destroy_source_witness :
  let s := state_after (@PC_class Z) [New 42%Z; CtorRaw 1 (Some 1)] in
  ∃ s', run PC_class [CtorMove 2 1; Dtor 1] s = Some ([RVoid; RVoid], s') ∧
        handles s' !! 2 = Some (Handle (Some 1) (Some 1)) ∧
        handles s' !! 1 = None ∧ counts s' = counts s.
Proof.
  intros s. eexists. split.
  - apply (move_then_destroy_source PC_cpp 2 1 (Handle (Some 1) (Some 1)) s);
      vm_compute; reflexivity.
  - repeat split; vm_compute; reflexivity.
Defined.

Lemma clone_twice_witness :
  let s := state_after (@PC_class Z)
             [New 42%Z; CtorRaw 1 (Some 1); CtorCopy 2 1] in
  ∃ s', clone PC_class 1 s = Some (true, s') ∧
        clone PC_class 1 s' = Some (false, s').
Proof.
  intros s. eexists. split; [vm_compute; reflexivity|].
  apply (clone_twice PC_cpp 1 true s). vm_compute. reflexivity.
Defined.

Lemma assign_copy_over_last_owner_witness :
  let s := state_after (@PC_class Z)
             [New 1%Z; CtorRaw 1 (Some 1); New 2%Z; CtorRaw 2 (Some 2)] in
  ∃ s', assign_copy PC_class 1 2 s = Some (1, s') ∧
        values s' !! 1 = Some Freed ∧ counts s' !! 1 = Some Freed ∧
        counts s' !! 2 = Some (Live 2%Z).
Proof.
  intros s. eexists. split.
  - apply (assign_copy_over_last_owner PC_cpp 1 2 1 1 1%Z 2 2 1%Z s);
      try done; vm_compute; reflexivity.
  - repeat split; vm_compute; reflexivity.
Defined.

Lemma programs_without_move_assignment_agree_witness :
  run Main_class [New 42%Z; CtorRaw 1 (Some 1); CtorCopy 2 1; Dtor 2] init =
  run PC_class [New 42%Z; CtorRaw 1 (Some 1); CtorCopy 2 1; Dtor 2] init.
Proof.
  apply programs_without_move_assignment_agree.
  intros this rhs Hin.
  repeat (apply elem_of_cons in Hin as [Hin | Hin]; [discriminate|]).
  by apply elem_of_nil in Hin.
Defined.

Lemma double_adoption_undefined_witness :
  run (@PC_class Z)
    [CtorRaw 1 (Some 1); CtorRaw 2 (Some 1); Dtor 1; Dtor 2]
    (state_after PC_class [New 42%Z]) = None.
Proof.
  apply (double_adoption_undefined PC_cpp 1 2 1 42%Z
           (state_after PC_class [New 42%Z]));
    [done | vm_compute; reflexivity..].
Defined.

Lemma owner_value_is_live_witness :
  let s := state_after (@PC_class Z)
             [New 42%Z; CtorRaw 1 (Some 1); CtorCopy 2 1] in
  ∃ v, values s !! 1 = Some (Live v) ∧
       deref PC_class 2 s = Some (Returned 1, s) ∧
       load_T (Some 1) s = Some (v, s).
Proof.
  intros s.
  apply (owner_value_is_live s 2 (Handle (Some 1) (Some 1)) 1);
    [apply two_owners_disciplined | vm_compute; reflexivity | reflexivity].
Defined.

Lemma count_equals_holders_witness :
  let s := state_after (@PC_class Z)
             [New 42%Z; CtorRaw 1 (Some 1); CtorCopy 2 1] in
  ref_count PC_class 2 s = Some (Z.of_nat (size (holders 1 (handles s))), s) ∧
  size (holders 1 (handles s)) = 2%nat.
Proof.
  intros s. split; [|vm_compute; reflexivity].
  apply (count_equals_holders s 2 (Handle (Some 1) (Some 1)) 1);
    [apply two_owners_disciplined | vm_compute; reflexivity | reflexivity].
Defined.

Lemma owner_calls_defined_witness :
  let s := state_after (@PC_class Z)
             [New 42%Z; CtorRaw 1 (Some 1); CtorCopy 2 1] in
  is_Some (dtor PC_class 1 s) ∧ is_Some (clone PC_class 1 s).
Proof.
  intros s.
  apply (owner_calls_defined s 1 (Handle (Some 1) (Some 1)) 1);
    [apply two_owners_disciplined | vm_compute; reflexivity | reflexivity].
Defined.

Lemma raw_ctor_adopts_witness :
  ∃ s' : state Z,
    ctor_raw PC_class 1 (Some 1) (state_after PC_class [New 42%Z]) =
      Some (Some 1, s') ∧
    ctor_raw_rvalue PC_class 1 (Some 1) (state_after PC_class [New 42%Z]) =
      Some (None, s') ∧
    ref_count PC_class 1 s' = Some (1%Z, s').
Proof.
  destruct (raw_ctor_adopts PC_cpp 1 (Some 1)
              (state_after (@PC_class Z) [New 42%Z]))
    as (c & s' & _ & _ & Hl & Hr & Hcount & _); [vm_compute; reflexivity|].
  exists s'. split; [exact Hl|]. split; [exact Hr | exact Hcount].
Defined.
End ExtraWitnesses.
